(** * UserMemory-Chat: the streaming conversation protocol and the client
      session reconciliation engine

    A shallow embedding of [frontend/src/services/api.js] ([chatApi], the SSE
    decoder) and of the [useChat] hook (the session state machine, the sticky
    error ledger kept in [localStorage], the sidebar list update), followed by
    the properties of the specification stated over that embedding.  The
    REST helper [handleResponse], the loading and deleting of conversations,
    the toast provider, the authentication provider and the route guards of
    [App.jsx] are embedded as well, with further properties of the code at
    the end.

    Conventions of the embedding.
    - A JavaScript string is represented by its UTF-8 bytes ([string]), on
      which the streaming [TextDecoder] is the identity; ["\n"] is one byte and
      never part of a longer character, and [toLowerCase] is modelled on the
      ASCII letters, which is all the quota vocabulary can match.
    - JavaScript values are restricted to the fragment the wire contract uses:
      [undefined], [null], booleans and strings ([JsValue]).  On that fragment
      [||], truthiness, [===], string conversion and [toLowerCase] are modelled
      exactly, including the [TypeError]s.
    - A JavaScript object used as a dictionary is the [gmap string _] of its
      own properties, which is what [JSON.stringify] writes and [JSON.parse]
      builds.  The one inherited name that behaves differently under
      assignment, [__proto__], is modelled: see [StickyStore.assign].
    - React state setters are applied in program order.  A callback built
      by [useCallback] reads the values its render captured, not the state at
      the time of the call: [sendMessage] takes the [Render] whose callback
      is called, [render w] being the one React builds once it has rendered
      the state [w].  When React renders is not modelled.  Effects on the
      outside world (requests issued, toasts,
      navigation, console diagnostics) are recorded in logs kept in the
      [World]; what the router does after [navigate] is not modelled.
    - The response body is the list of the chunks read, as text.
    - [localStorage.getItem] never throws; [localStorage.setItem] throws when
      the quota is exhausted.
    - Exceptions are explicit: a computation is [Returned] or [Thrown], and a
      thrown computation keeps the state reached when the exception was
      raised. *)

From Stdlib Require Import Ascii ZArith Bool Lia.
From stdpp Require Import base option list gmap strings.

Local Open Scope Z_scope.
Local Open Scope stdpp_scope.

(* ===================================================================== *)
(** * JavaScript strings                                                  *)
(* ===================================================================== *)

Module JsString.

(** The line feed character, ["\n"]. *)
Definition LF : ascii := "010"%char.

(** [s.startsWith(p)] *)
Fixpoint startsWith (p s : string) : bool :=
  match p, s with
  | EmptyString, _ => true
  | String a p', String b s' => if decide (a = b) then startsWith p' s' else false
  | String _ _, EmptyString => false
  end.

(** [s.slice(n)] for a non-negative [n]. *)
Fixpoint slice (n : nat) (s : string) : string :=
  match n, s with
  | O, _ => s
  | S n', String _ s' => slice n' s'
  | S _, EmptyString => EmptyString
  end.

(** [s.includes(sub)] *)
Fixpoint includes (sub s : string) : bool :=
  startsWith sub s ||
  match s with
  | EmptyString => false
  | String _ s' => includes sub s'
  end.

Definition lower_ascii (c : ascii) : ascii :=
  let n := nat_of_ascii c in
  if ((65 <=? n)%nat && (n <=? 90)%nat)%bool then ascii_of_nat (n + 32) else c.

(** [s.toLowerCase()] *)
Fixpoint toLowerCase (s : string) : string :=
  match s with
  | EmptyString => EmptyString
  | String c s' => String (lower_ascii c) (toLowerCase s')
  end.

(** [s.split("\n")]: the segments between line feeds; never empty. *)
Fixpoint split_lf (s : string) : list string :=
  match s with
  | EmptyString => [EmptyString]
  | String c s' =>
      if decide (c = LF) then EmptyString :: split_lf s'
      else match split_lf s' with
           | h :: t => String c h :: t
           | [] => [String c EmptyString]
           end
  end.

(** [lines.pop()]: the array without its last element, and that element
    ([None] stands for [undefined], returned on an empty array). *)
Fixpoint pop (lines : list string) : list string * option string :=
  match lines with
  | [] => ([], None)
  | [x] => ([], Some x)
  | x :: rest => let '(init, lst) := pop rest in (x :: init, lst)
  end.

(** [lines.join("\n")], the inverse of [split_lf]. *)
Fixpoint join_lf (lines : list string) : string :=
  match lines with
  | [] => EmptyString
  | [x] => x
  | x :: rest => x +:+ String LF (join_lf rest)
  end.

(** Concatenation of a list of strings, in order. *)
Fixpoint concat (l : list string) : string :=
  match l with
  | [] => EmptyString
  | x :: rest => x +:+ concat rest
  end.

(** [s] contains a line feed. *)
Fixpoint has_lf (s : string) : bool :=
  match s with
  | EmptyString => false
  | String c s' => if decide (c = LF) then true else has_lf s'
  end.

(** The complete lines of a text (those ended by a line feed) and the
    unfinished line after them. *)
Definition complete_lines (s : string) : list string := removelast (split_lf s).
Definition partial_line (s : string) : string :=
  default EmptyString (last (split_lf s)).


End JsString.

(* ===================================================================== *)
(** * JavaScript values of the wire contract                              *)
(* ===================================================================== *)

(** What JSON can carry in a field of the wire contract. *)
Inductive JsonValue : Type :=
| JNull
| JBool (b : bool)
| JStr (s : string).

Global Instance JsonValue_eq_dec : EqDecision JsonValue.
Proof. solve_decision. Defined.

(** A JavaScript value: [undefined], or one of the above. *)
Abbreviation JsValue := (option JsonValue).
Abbreviation VUndefined := None (only parsing).
Abbreviation VNull := (Some JNull).
Abbreviation VBool b := (Some (JBool b)).
Abbreviation VStr s := (Some (JStr s)).

(** ToBoolean *)
Definition truthy (v : JsValue) : bool :=
  match v with
  | VUndefined | VNull => false
  | VBool b => b
  | VStr s => if decide (s = EmptyString) then false else true
  end.

(** [a || b] *)
Definition js_or (a b : JsValue) : JsValue := if truthy a then a else b.

(** ToString, as used by [+=], template literals and property keys. *)
Definition ToString (v : JsValue) : string :=
  match v with
  | VUndefined => "undefined"
  | VNull => "null"
  | VBool true => "true"
  | VBool false => "false"
  | VStr s => s
  end.

(** The result of [JSON.parse]: a primitive or an object, whose own
    properties form a finite map. *)
Inductive json : Type :=
| JPrim (v : JsonValue)
| JObject (fields : gmap string JsonValue).

(** [data.k] on a non-null [data]: the own property or [undefined]. *)
Definition get_field (data : json) (k : string) : JsValue :=
  match data with
  | JPrim _ => VUndefined
  | JObject fields => fields !! k
  end.

(** [Object.keys(data).length]: the own enumerable properties; a string has
    one per character, the other primitives none. *)
Definition keys_length (data : json) : nat :=
  match data with
  | JPrim (JStr s) => String.length s
  | JPrim _ => 0%nat
  | JObject fields => size fields
  end.

(* ===================================================================== *)
(** * Completions                                                         *)
(* ===================================================================== *)

(** A computation over a state [S] either returns or throws an [Error] with
    the given message; both carry the state reached. *)
Inductive Result (S : Type) : Type :=
| Returned (s : S)
| Thrown (message : string) (s : S).
Arguments Returned {S} s.
Arguments Thrown {S} message s.

Definition state_of {S} (r : Result S) : S :=
  match r with Returned s | Thrown _ s => s end.

Definition throws {S} (r : Result S) : bool :=
  match r with Returned _ => false | Thrown _ _ => true end.

(** Sequencing: the continuation runs only after a normal return. *)
Definition andThen {S} (r : Result S) (k : S → Result S) : Result S :=
  match r with
  | Returned s => k s
  | Thrown m s => Thrown m s
  end.

(** [try { r } catch (e) { handler(e) }] *)
Definition tryCatch {S} (r : Result S) (handler : string → S → S) : S :=
  match r with
  | Returned s => s
  | Thrown m s => handler m s
  end.

Notation "r >>> k" := (andThen r k) (at level 61, left associativity).

(* ===================================================================== *)
(** * The data model                                                      *)
(* ===================================================================== *)

Inductive Role : Type := RoleUser | RoleModel | RoleError.

Global Instance Role_eq_dec : EqDecision Role.
Proof. solve_decision. Defined.

Record Message : Type := mkMessage { role : Role; content : string }.

Global Instance Message_eq_dec : EqDecision Message.
Proof. solve_decision. Defined.

(** An entry of the sidebar list: [id], [title], and whatever other
    properties the server put in it. *)
Record Conversation : Type := mkConversation {
  conv_id : JsValue;
  conv_title : JsValue;
  conv_other : gmap string JsonValue;
}.

Global Instance Conversation_eq_dec : EqDecision Conversation.
Proof. solve_decision. Defined.

(** An entry of the ledger, [{ content, timestamp }]. *)
Record StickyError : Type :=
  mkStickyError { error_content : string; timestamp : Z }.

(** What [localStorage] holds under the key ["chat_errors"]: nothing
    ([getItem] gives [null]), a text [JSON.parse] rejects, or the serialized
    ledger.  [JSON.stringify] followed by [JSON.parse] is the identity on a
    ledger, so the stored text is represented by the ledger itself. *)
Inductive StoredItem : Type :=
| NoItem
| Malformed
| Ledger (errors : gmap string StickyError).

(** The persistence mechanism.  [setItem] throws a [QuotaExceededError] when
    the quota is exhausted or storage is disabled. *)
Record LocalStorage : Type := mkLocalStorage {
  chat_errors : StoredItem;
  quota_exceeded : bool;
}.

Inductive ToastType : Type := toast_error | toast_success.

(** [toast.error(message, duration)] *)
Record Toast : Type := mkToast {
  toast_message : string;
  toast_type : ToastType;
  toast_duration : option Z;
}.

(** The body of the [POST /api/chat] request. *)
Record Request : Type := mkRequest {
  req_message : string;
  req_conversation_id : JsValue;
}.

(** The state of [useChat] and the outside world it acts on. *)
Record World : Type := mkWorld {
  conversations : list Conversation;
  messages : list Message;
  isLoading : bool;
  streamingContent : string;
  currentConversationId : JsValue;
  localStorage : LocalStorage;
  now : Z;                        (* Date.now() *)
  toasts : list Toast;            (* toasts fired, oldest first *)
  navigations : list string;      (* navigate(url, { replace: true }) *)
  requests : list Request;        (* fetch calls to /api/chat *)
  console : list string;          (* console.error diagnostics *)
}.

Definition setConversations (f : list Conversation → list Conversation) (w : World) : World :=
  mkWorld (f (conversations w)) (messages w) (isLoading w) (streamingContent w)
    (currentConversationId w) (localStorage w) (now w) (toasts w)
    (navigations w) (requests w) (console w).

Definition setMessages (f : list Message → list Message) (w : World) : World :=
  mkWorld (conversations w) (f (messages w)) (isLoading w) (streamingContent w)
    (currentConversationId w) (localStorage w) (now w) (toasts w)
    (navigations w) (requests w) (console w).

Definition setIsLoading (b : bool) (w : World) : World :=
  mkWorld (conversations w) (messages w) b (streamingContent w)
    (currentConversationId w) (localStorage w) (now w) (toasts w)
    (navigations w) (requests w) (console w).

Definition setStreamingContent (s : string) (w : World) : World :=
  mkWorld (conversations w) (messages w) (isLoading w) s
    (currentConversationId w) (localStorage w) (now w) (toasts w)
    (navigations w) (requests w) (console w).

Definition setCurrentConversationId (v : JsValue) (w : World) : World :=
  mkWorld (conversations w) (messages w) (isLoading w) (streamingContent w)
    v (localStorage w) (now w) (toasts w)
    (navigations w) (requests w) (console w).

Definition setLocalStorage (ls : LocalStorage) (w : World) : World :=
  mkWorld (conversations w) (messages w) (isLoading w) (streamingContent w)
    (currentConversationId w) ls (now w) (toasts w)
    (navigations w) (requests w) (console w).

Definition toast_fire (t : Toast) (w : World) : World :=
  mkWorld (conversations w) (messages w) (isLoading w) (streamingContent w)
    (currentConversationId w) (localStorage w) (now w) (toasts w ++ [t])
    (navigations w) (requests w) (console w).

Definition navigate (url : string) (w : World) : World :=
  mkWorld (conversations w) (messages w) (isLoading w) (streamingContent w)
    (currentConversationId w) (localStorage w) (now w) (toasts w)
    (navigations w ++ [url]) (requests w) (console w).

Definition fetch_chat (r : Request) (w : World) : World :=
  mkWorld (conversations w) (messages w) (isLoading w) (streamingContent w)
    (currentConversationId w) (localStorage w) (now w) (toasts w)
    (navigations w) (requests w ++ [r]) (console w).

Definition console_error (msg : string) (w : World) : World :=
  mkWorld (conversations w) (messages w) (isLoading w) (streamingContent w)
    (currentConversationId w) (localStorage w) (now w) (toasts w)
    (navigations w) (requests w) (console w ++ [msg]).

(* ===================================================================== *)
(** * The Sticky Error Store                                              *)
(* ===================================================================== *)

Module StickyStore.

(** [getStoredErrors]: the parsed ledger; an absent item gives [{}], a
    malformed one is reported on the console and gives [{}]. *)
Definition getStoredErrors (w : World) : gmap string StickyError * World :=
  match chat_errors (localStorage w) with
  | NoItem => (∅, w)
  | Ledger errors => (errors, w)
  | Malformed => (∅, console_error "Failed to parse stored errors:" w)
  end.

(** [localStorage.setItem(ERROR_STORAGE_KEY, JSON.stringify(errors))] *)
Definition setItem (errors : gmap string StickyError) (w : World) : Result World :=
  if quota_exceeded (localStorage w)
  then Thrown "QuotaExceededError" w
  else Returned (setLocalStorage
                   (mkLocalStorage (Ledger errors) (quota_exceeded (localStorage w))) w).

(** The property name whose assignment does not create an own property:
    [Object.prototype.__proto__] is an accessor, and its setter replaces the
    prototype of the object assigned to. *)
Definition proto_key : string := "__proto__".

(** [errors[key] = entry], as far as the own properties go.  The key
    [__proto__] reaches the setter of [Object.prototype], and no own property
    is created, unless [JSON.parse] had found that key in the stored text and
    made it an own property, which the assignment then updates. *)
Definition assign (key : string) (entry : StickyError)
    (errors : gmap string StickyError) : gmap string StickyError :=
  if decide (key = proto_key)
  then match errors !! key with
       | Some _ => <[key := entry]> errors
       | None => errors
       end
  else <[key := entry]> errors.

(** [storeError(conversationId, errorContent)] *)
Definition storeError (conversationId : JsValue) (errorContent : string)
    (w : World) : Result World :=
  let '(errors, w1) := getStoredErrors w in
  let errors :=
    assign (ToString conversationId) (mkStickyError errorContent (now w1)) errors in
  setItem errors w1.

(** [removeError(conversationId)] *)
Definition removeError (conversationId : JsValue) (w : World) : Result World :=
  let '(errors, w1) := getStoredErrors w in
  let errors := delete (ToString conversationId) errors in
  setItem errors w1.

(** [getErrorForConversation(conversationId)]:
    [errors[conversationId]?.content || null], with [None] for [null]. *)
Definition getErrorForConversation (conversationId : JsValue) (w : World)
    : option string * World :=
  let '(errors, w1) := getStoredErrors w in
  (match errors !! ToString conversationId with
   | Some e => if decide (error_content e = EmptyString) then None
               else Some (error_content e)
   | None => None
   end, w1).

End StickyStore.

(* ===================================================================== *)
(** * The wire: responses and protocol events                             *)
(* ===================================================================== *)

Inductive EventType : Type :=
| EvConversation | EvDelta | EvTitle | EvDone | EvError.

Global Instance EventType_eq_dec : EqDecision EventType.
Proof. solve_decision. Defined.

(** [{ type, data }], as handed to the [onEvent] callback. *)
Record ProtocolEvent : Type := mkEvent { ev_type : EventType; ev_data : json }.

(** How the body stream ends: [reader.read()] reports [done], or rejects. *)
Inductive StreamEnd : Type :=
| EndOfStream
| ReadError (message : string).

(** What the network does with one [POST /api/chat]:
    - [fetch] rejects (network failure);
    - the response is not [ok]; [body] is the parsed JSON body, if it is JSON;
    - the response is [ok] and its body arrives as text chunks
      ([decoder.decode(value, { stream: true })] of each chunk read). *)
Inductive Response : Type :=
| FetchRejected (message : string)
| NotOk (body : option json)
| Ok (chunks : list string) (ending : StreamEnd).

(** Reading a property of [null] throws a [TypeError]. *)
Definition nullish (data : json) : bool :=
  match data with
  | JPrim JNull => true
  | _ => false
  end.

Definition reading {S : Type} (data : json) (k : string) (s : S)
    (cont : JsValue → Result S) : Result S :=
  if nullish data then Thrown "TypeError" s else cont (get_field data k).

(* ===================================================================== *)
(** * chatApi.sendMessage: the stream decoder                             *)
(* ===================================================================== *)

Section ChatApi.

(** The decoder knows nothing of the session: it is written over any state
    [S], given the globals it calls. *)
Context {S : Type}.
Variable JSON_parse : string → option json.        (* None: SyntaxError *)
Variable fetch : Request → S → S.
Variable console_error_hook : string → S → S.

(** The body of the [try] once [JSON.parse] has returned [data]: the event
    type is inferred from the shape of [data]. *)
Definition dispatch (onEvent : ProtocolEvent → S → Result S)
    (data : json) (s : S) : Result S :=
  if nullish data then Thrown "TypeError" s
  else if negb (bool_decide (get_field data "conversation_id" = VUndefined))
  then onEvent (mkEvent EvConversation data) s
  else if negb (bool_decide (get_field data "content" = VUndefined))
  then onEvent (mkEvent EvDelta data) s
  else if negb (bool_decide (get_field data "title" = VUndefined))
  then onEvent (mkEvent EvTitle data) s
  else if negb (bool_decide (get_field data "message" = VUndefined))
  then onEvent (mkEvent EvError data) s
  else if bool_decide (keys_length data = 0%nat)
  then onEvent (mkEvent EvDone data) s
  else Returned s.

(** One iteration of [for (const line of lines)]. *)
Definition process_line (onEvent : ProtocolEvent → S → Result S)
    (line : string) (s : S) : S :=
  if JsString.startsWith "event: " line then s
  else if JsString.startsWith "data: " line then
    let dataStr := JsString.slice 6 line in
    tryCatch
      (match JSON_parse dataStr with
       | None => Thrown "SyntaxError" s
       | Some data => dispatch onEvent data s
       end)
      (fun e s' => console_error_hook "Failed to parse SSE data:" s')
  else s.

Definition process_lines (onEvent : ProtocolEvent → S → Result S)
    (lines : list string) (s : S) : S :=
  fold_left (fun s line => process_line onEvent line s) lines s.

(** [while (true) { ... }]: one iteration per chunk read, until the reader
    reports the end of the stream or rejects. *)
Fixpoint read_loop (onEvent : ProtocolEvent → S → Result S)
    (chunks : list string) (ending : StreamEnd) (buffer : string) (s : S)
    : Result S :=
  match chunks with
  | [] =>
      match ending with
      | EndOfStream => Returned s
      | ReadError m => Thrown m s
      end
  | value :: rest =>
      let buffer := buffer +:+ value in
      let lines := JsString.split_lf buffer in
      let '(lines, last) := JsString.pop lines in
      let buffer := default EmptyString last in
      read_loop onEvent rest ending buffer (process_lines onEvent lines s)
  end.

(** [chatApi.sendMessage(message, conversationId, onEvent)] *)
Definition chatApi_sendMessage (message : string) (conversationId : JsValue)
    (onEvent : ProtocolEvent → S → Result S) (response : Response) (s : S)
    : Result S :=
  let s := fetch (mkRequest message (js_or conversationId VNull)) s in
  match response with
  | FetchRejected m => Thrown m s
  | NotOk body =>
      let error :=
        match body with
        | Some e => e
        | None => JObject {[ "detail" := JStr "An error occurred" ]}
        end in
      reading error "detail" s (fun detail =>
        Thrown (ToString (js_or detail (VStr "An error occurred"))) s)
  | Ok chunks ending => read_loop onEvent chunks ending EmptyString s
  end.

End ChatApi.

(* ===================================================================== *)
(** * useChat.sendMessage: the session state machine                      *)
(* ===================================================================== *)

(** The state of one send-cycle: the world, and the two variables the
    [onEvent] closure captures. *)
Record Cycle : Type := mkCycle {
  world : World;
  newConversationId : JsValue;
  accumulatedContent : string;
}.

Definition on_world (f : World → World) (c : Cycle) : Cycle :=
  mkCycle (f (world c)) (newConversationId c) (accumulatedContent c).

(** Runs a store operation on the world of the cycle. *)
Definition store_op (op : World → Result World) (c : Cycle) : Result Cycle :=
  match op (world c) with
  | Returned w => Returned (mkCycle w (newConversationId c) (accumulatedContent c))
  | Thrown m w => Thrown m (mkCycle w (newConversationId c) (accumulatedContent c))
  end.

(** The banner put before quota-like errors (the warning sign, U+26A0 U+FE0F,
    in UTF-8). *)
Definition banner : string :=
  "⚠️ Credits Limit Reached" +:+ String JsString.LF (String JsString.LF EmptyString).

(** The four [includes] tests of the [error] case. *)
Definition is_limit_error (errorMessage : string) : bool :=
  let lowered := JsString.toLowerCase errorMessage in
  JsString.includes "credit" lowered
  || JsString.includes "limit" lowered
  || JsString.includes "quota" lowered
  || JsString.includes "rate limit" lowered.

(** The updater passed to [setConversations] in the [title] case. *)
Definition sync_title (newConversationId title : JsValue)
    (prev : list Conversation) : list Conversation :=
  let exists_ := existsb (fun c => bool_decide (conv_id c = newConversationId)) prev in
  if exists_
  then map (fun c =>
              if bool_decide (conv_id c = newConversationId)
              then mkConversation (conv_id c) title (conv_other c)
              else c) prev
  else mkConversation newConversationId title ∅ :: prev.

(** The callback passed to [chatApi.sendMessage]. *)
Definition onEvent (event : ProtocolEvent) (c : Cycle) : Result Cycle :=
  match ev_type event with
  | EvConversation =>
      reading (ev_data event) "conversation_id" c (fun nid =>
        let c := mkCycle (setCurrentConversationId nid (world c)) nid
                   (accumulatedContent c) in
        if truthy (get_field (ev_data event) "is_new")
        then Returned (on_world (navigate ("/chat/" +:+ ToString nid)) c)
        else Returned c)
  | EvDelta =>
      reading (ev_data event) "content" c (fun d =>
        let acc := accumulatedContent c +:+ ToString d in
        Returned (mkCycle (setStreamingContent acc (world c))
                    (newConversationId c) acc))
  | EvTitle =>
      reading (ev_data event) "title" c (fun t =>
        Returned (on_world
                    (setConversations (sync_title (newConversationId c) t)) c))
  | EvDone =>
      (if truthy (VStr (accumulatedContent c))
       then
         let c := on_world
                    (setMessages (λ prev,
                       prev ++ [mkMessage RoleModel (accumulatedContent c)])) c in
         if truthy (newConversationId c)
         then store_op (StickyStore.removeError (newConversationId c)) c
         else Returned c
       else Returned c)
      >>> (fun c =>
        Returned (on_world (setIsLoading false)
                    (on_world (setStreamingContent EmptyString) c)))
  | EvError =>
      reading (ev_data event) "message" c (fun m =>
        let errorMessage := js_or m (VStr "An error occurred") in
        match errorMessage with
        | VStr errorMessage =>
            let displayMessage :=
              if is_limit_error errorMessage
              then banner +:+ errorMessage
              else errorMessage in
            (if truthy (newConversationId c)
             then store_op (StickyStore.storeError (newConversationId c) displayMessage) c
             else Returned c)
            >>> (fun c =>
              Returned
                (on_world (setIsLoading false)
                   (on_world (setStreamingContent EmptyString)
                      (on_world
                         (setMessages (λ prev,
                            prev ++ [mkMessage RoleError displayMessage])) c))))
        | _ => Thrown "TypeError" c    (* errorMessage.toLowerCase is not a function *)
        end)
  end.

(** [prev.slice(0, -1)] *)
Definition slice_0_m1 {A} (prev : list A) : list A := removelast prev.

(** What the callbacks of one render have captured of the state:
    [useCallback] rebuilds [sendMessage] when [isLoading] or
    [currentConversationId] change, and until React has rendered again a call
    goes through the callback of the last render and reads its values. *)
Record Render : Type := mkRender {
  render_isLoading : bool;
  render_currentConversationId : JsValue;
}.

(** The render of a state: what the callbacks hold once React has rendered
    it. *)
Definition render (w : World) : Render :=
  mkRender (isLoading w) (currentConversationId w).

(** The statements of [sendMessage] that run before the request is awaited:
    the optimistic user message, the loading flag, the streaming buffer, and
    the two variables the event callback captures; [newConversationId] starts
    as the [currentConversationId] of the render. *)
Definition begin_cycle (r : Render) (content : string) (w : World) : Cycle :=
  let userMessage := mkMessage RoleUser content in
  mkCycle
    (setStreamingContent EmptyString
       (setIsLoading true
          (setMessages (λ prev, prev ++ [userMessage]) w)))
    (render_currentConversationId r)
    EmptyString.

(** The [catch (err)] block of [sendMessage]. *)
Definition on_transport_error (err_message : string) (c : Cycle) : Cycle :=
  let errorMessage :=
    ToString (js_or (VStr err_message) (VStr "Failed to send message")) in
  on_world (setMessages slice_0_m1)
    (on_world (setStreamingContent EmptyString)
       (on_world (setIsLoading false)
          (on_world (toast_fire (mkToast errorMessage toast_error (Some 7000)))
             c))).

Section UseChat.

Variable JSON_parse : string → option json.

(** The decoder as [useChat] runs it: [fetch] and [console.error] act on the
    world of the cycle. *)
Definition session_chatApi (message : string) (conversationId : JsValue)
    (response : Response) (c : Cycle) : Result Cycle :=
  chatApi_sendMessage JSON_parse
    (λ r, on_world (fetch_chat r))
    (λ msg, on_world (console_error msg))
    message conversationId onEvent response c.

(** [sendMessage(content)] of the render [r], called in the state [w] and
    run against what the network answers. *)
Definition sendMessage (r : Render) (content : string) (response : Response)
    (w : World) : World :=
  if render_isLoading r then w
  else
    world
      (tryCatch
         (session_chatApi content (render_currentConversationId r) response
            (begin_cycle r content w))
         on_transport_error).

End UseChat.

(** What the server answers to [conversationsApi.delete]: success, or a
    failure thrown as an [Error] with the given message. *)
Inductive DeleteResponse : Type :=
| DeleteSucceeds
| DeleteFails (message : string).

(** [deleteConversation(conversationId)], called through the callback of
    the render of [w] (the [currentConversationId] it compares with is the
    one of [w]): the value returned and the world left. *)
Definition deleteConversation (conversationId : JsValue)
    (response : DeleteResponse) (w : World) : bool * World :=
  let attempt : Result World :=
    match response with
    | DeleteFails m => Thrown m w
    | DeleteSucceeds =>
        let w := setConversations
                   (List.filter
                      (λ c, negb (bool_decide (conv_id c = conversationId)))) w in
        StickyStore.removeError conversationId w
        >>> (λ w,
          let w :=
            if bool_decide (currentConversationId w = conversationId)
            then setCurrentConversationId VNull
                   (setMessages (λ _, []) (navigate "/" w))
            else w in
          Returned (toast_fire (mkToast "Conversation deleted" toast_success None) w))
    end in
  match attempt with
  | Returned w => (true, w)
  | Thrown m w =>
      let message := ToString (js_or (VStr m) (VStr "Failed to delete conversation")) in
      (false, toast_fire (mkToast message toast_error None) w)
  end.

(* ===================================================================== *)
(** * Definitions used to state the properties                            *)
(* ===================================================================== *)

(** How [read_loop] completes once the chunks are consumed. *)
Definition finish {S : Type} (ending : StreamEnd) (s : S) : Result S :=
  match ending with
  | EndOfStream => Returned s
  | ReadError m => Thrown m s
  end.

(** The lines [read_loop] iterates over, in order, and the buffer it holds
    when the stream ends: the same loop, keeping the lines instead of
    processing them. *)
Fixpoint lines_read (chunks : list string) (buffer : string) : list string * string :=
  match chunks with
  | [] => ([], buffer)
  | value :: rest =>
      let buffer := buffer +:+ value in
      let '(lines, last) := JsString.pop (JsString.split_lf buffer) in
      let '(more, final) := lines_read rest (default EmptyString last) in
      (lines ++ more, final)
  end.

(** A callback that only records the events it is handed. *)
Definition record_event (ev : ProtocolEvent) (seen : list ProtocolEvent)
    : Result (list ProtocolEvent) :=
  Returned (seen ++ [ev]).

(** The event sequence the decoder produces for a chunked stream: what the
    recording callback has seen when the stream ends. *)
Definition decoded_events (JSON_parse : string → option json)
    (chunks : list string) : list ProtocolEvent :=
  state_of (read_loop JSON_parse (λ _ seen, seen) record_event chunks
              EndOfStream EmptyString []).

(** What one line makes the decoder do: nothing, a diagnostic on the console,
    or a call of the callback. *)
Inductive LineAction : Type :=
| Skip
| Diagnose
| Fire (ev : ProtocolEvent).

Definition infer_event (data : json) : LineAction :=
  if nullish data then Diagnose
  else if negb (bool_decide (get_field data "conversation_id" = VUndefined))
  then Fire (mkEvent EvConversation data)
  else if negb (bool_decide (get_field data "content" = VUndefined))
  then Fire (mkEvent EvDelta data)
  else if negb (bool_decide (get_field data "title" = VUndefined))
  then Fire (mkEvent EvTitle data)
  else if negb (bool_decide (get_field data "message" = VUndefined))
  then Fire (mkEvent EvError data)
  else if bool_decide (keys_length data = 0%nat)
  then Fire (mkEvent EvDone data)
  else Skip.

Definition line_action (JSON_parse : string → option json) (line : string)
    : LineAction :=
  if JsString.startsWith "event: " line then Skip
  else if JsString.startsWith "data: " line then
    match JSON_parse (JsString.slice 6 line) with
    | None => Diagnose
    | Some data => infer_event data
    end
  else Skip.

Definition perform {S : Type} (console_error_hook : string → S → S)
    (onEvent : ProtocolEvent → S → Result S) (a : LineAction) (s : S) : S :=
  match a with
  | Skip => s
  | Diagnose => console_error_hook "Failed to parse SSE data:" s
  | Fire ev =>
      tryCatch (onEvent ev s)
        (λ _ s', console_error_hook "Failed to parse SSE data:" s')
  end.

Definition fired (a : LineAction) : list ProtocolEvent :=
  match a with
  | Fire ev => [ev]
  | _ => []
  end.

(** The type inference policy in the words of the specification (section
    4.1): the kind is decided by which fields are present, in this order. *)
Definition inferred_kind (fields : gmap string JsonValue) : option EventType :=
  if decide ("conversation_id" ∈ dom fields) then Some EvConversation
  else if decide ("content" ∈ dom fields) then Some EvDelta
  else if decide ("title" ∈ dom fields) then Some EvTitle
  else if decide ("message" ∈ dom fields) then Some EvError
  else if decide (fields = ∅) then Some EvDone
  else None.

(** The policy on every payload [JSON.parse] can return in the fragment.  An
    object is classified by the policy above.  The tests of the policy are
    property reads and a count of keys, which a payload that is not an object
    answers too: [null] makes the first read throw, which is reported; a
    boolean or the empty string has no property and no key, and passes for
    the empty payload; a non-empty string has one key per character and
    matches nothing. *)
Definition classified (data : json) : LineAction :=
  match data with
  | JObject fields =>
      match inferred_kind fields with
      | Some kind => Fire (mkEvent kind data)
      | None => Skip
      end
  | JPrim JNull => Diagnose
  | JPrim (JBool _) => Fire (mkEvent EvDone data)
  | JPrim (JStr s) =>
      if decide (s = EmptyString) then Fire (mkEvent EvDone data) else Skip
  end.

(** What the text of a payload makes the decoder do: text that is not JSON
    is reported. *)
Definition payload_action (parsed : option json) : LineAction :=
  match parsed with
  | None => Diagnose
  | Some data => classified data
  end.

(** The text streamed by a sequence of events: the contents of its [delta]
    events, concatenated in arrival order. *)
Definition streamed_content (evs : list ProtocolEvent) : string :=
  fold_left
    (λ acc ev,
       match ev_type ev with
       | EvDelta =>
           if nullish (ev_data ev) then acc
           else acc +:+ ToString (get_field (ev_data ev) "content")
       | _ => acc
       end)
    evs EmptyString.

(** The conversation a cycle is bound to after a sequence of events: the id
    of the last [conversation] event, or the one the cycle started with. *)
Definition cycle_conversation (initial : JsValue) (evs : list ProtocolEvent) : JsValue :=
  fold_left
    (λ cid ev,
       match ev_type ev with
       | EvConversation =>
           if nullish (ev_data ev) then cid
           else get_field (ev_data ev) "conversation_id"
       | _ => cid
       end)
    evs initial.

(** An event that ends a cycle. *)
Definition terminal (ev : ProtocolEvent) : bool :=
  match ev_type ev with
  | EvDone | EvError => true
  | _ => false
  end.

(** A failure of the request itself, before any stream is established. *)
Definition transport_failure (response : Response) : bool :=
  match response with
  | FetchRejected _ | NotOk _ => true
  | Ok _ _ => false
  end.



(** [get(conversationId)] of the store, as a plain function of the world. *)
Definition sticky_get (conversationId : JsValue) (w : World) : option string :=
  (StickyStore.getErrorForConversation conversationId w).1.

(** What the [title] case does to an entry of the list. *)
Definition retitle (cid title : JsValue) (c : Conversation) : Conversation :=
  if decide (conv_id c = cid)
  then mkConversation (conv_id c) title (conv_other c)
  else c.

(** What every event keeps true of the two captured variables and of the
    quota flag, in terms of the events received so far. *)
Definition summary (cid : JsValue) (q : bool) (evs : list ProtocolEvent)
    (c : Cycle) : Prop :=
  accumulatedContent c = streamed_content evs
  ∧ newConversationId c = cycle_conversation cid evs
  ∧ quota_exceeded (localStorage (world c)) = q.

(** A [delta] event with content [d]. *)
Definition delta_event (d : string) : ProtocolEvent :=
  mkEvent EvDelta (JObject {[ "content" := JStr d ]}).

(* ===================================================================== *)
(** * Sample payloads, streams and worlds                                 *)
(* ===================================================================== *)

(** The double quote. *)
Definition dq : string := String "034"%char EmptyString.
Definition quoted (s : string) : string := dq +:+ s +:+ dq.

(** JSON texts of the wire contract. *)
Definition json_text_done : string := "{}".
Definition json_text_delta_Hi : string :=
  "{" +:+ quoted "content" +:+ ":" +:+ quoted "Hi" +:+ "}".
Definition json_text_conversation_c1 : string :=
  "{" +:+ quoted "conversation_id" +:+ ":" +:+ quoted "c1" +:+ ","
      +:+ quoted "is_new" +:+ ":false}".
Definition json_text_error_boom : string :=
  "{" +:+ quoted "message" +:+ ":" +:+ quoted "boom" +:+ "}".
Definition json_text_ping : string := "{" +:+ quoted "ping" +:+ ":true}".
Definition json_text_true : string := "true".

(** [JSON.parse] on the texts above (any other text is taken as malformed;
    the examples use no other). *)
Definition sample_JSON_parse (text : string) : option json :=
  if decide (text = json_text_done) then Some (JObject ∅)
  else if decide (text = json_text_delta_Hi)
  then Some (JObject {[ "content" := JStr "Hi" ]})
  else if decide (text = json_text_conversation_c1)
  then Some (JObject {[ "conversation_id" := JStr "c1"; "is_new" := JBool false ]})
  else if decide (text = json_text_error_boom)
  then Some (JObject {[ "message" := JStr "boom" ]})
  else if decide (text = json_text_ping)
  then Some (JObject {[ "ping" := JBool true ]})
  else if decide (text = json_text_true)
  then Some (JPrim (JBool true))
  else None.

(** One server-sent record: a [data:] line and the blank line ending it. *)
Definition sse_record (text : string) : string :=
  "data: " +:+ text +:+ String JsString.LF (String JsString.LF EmptyString).

Definition ev_done : ProtocolEvent := mkEvent EvDone (JObject ∅).
Definition ev_error_boom : ProtocolEvent :=
  mkEvent EvError (JObject {[ "message" := JStr "boom" ]}).

(** A fresh chat: nothing loaded, no conversation bound, empty ledger. *)
Definition world_new_chat : World :=
  mkWorld [] [] false EmptyString VNull (mkLocalStorage NoItem false)
    1700000000000 [] [] [] [].

Definition conversation_c1 : Conversation :=
  mkConversation (VStr "c1") (VStr "First chat") ∅.

(** Conversation [c1] is loaded and has a sticky error. *)
Definition world_c1_failed : World :=
  mkWorld [conversation_c1] [] false EmptyString (VStr "c1")
    (mkLocalStorage (Ledger {[ "c1" := mkStickyError "boom" 1699999999000 ]}) false)
    1700000000000 [] [] [] [].

(** Conversation [c1] is loaded, the ledger was never written, and the
    storage quota is exhausted. *)
Definition world_c1_quota : World :=
  mkWorld [conversation_c1] [] false EmptyString (VStr "c1")
    (mkLocalStorage NoItem true)
    1700000000000 [] [] [] [].

(** Conversation [c1] is active and the stored ledger is not JSON. *)
Definition world_malformed_ledger : World :=
  mkWorld [conversation_c1] [] false EmptyString (VStr "c1")
    (mkLocalStorage Malformed false)
    1700000000000 [] [] [] [].

(** Two bodies, one chunk per record: a reply and its [done]; a reply cut
    short by an [error]. *)
Definition stream_Hi_done : list string :=
  [sse_record json_text_delta_Hi; sse_record json_text_done].
Definition stream_Hi_boom : list string :=
  [sse_record json_text_delta_Hi; sse_record json_text_error_boom].

(* ===================================================================== *)
(** * The REST calls: handleResponse and its callers                      *)
(* ===================================================================== *)

(** How an awaited call settles. *)
Inductive Outcome (A : Type) : Type :=
| Resolved (a : A)
| Rejected (message : string).
Arguments Resolved {A} a.
Arguments Rejected {A} message.

(** What the network does with a REST request: [fetch] rejects; the
    response is not [ok], [body] being its parsed JSON body if it is JSON; or
    the response is [ok], [data] being how [response.json()] settles.  As
    everywhere, the message of a built-in exception is the name of its
    class. *)
Inductive RestResponse (A : Type) : Type :=
| RestRejected (message : string)
| RestNotOk (body : option json)
| RestOk (data : Outcome A).
Arguments RestRejected {A} message.
Arguments RestNotOk {A} body.
Arguments RestOk {A} data.

(** The message of the [Error] thrown on a response that is not ok:
    [error.detail || fallback], where [error] is the parsed body, or
    [{ detail: fallback }] when the body is not JSON. *)
Definition error_detail (fallback : string) (body : option json) : string :=
  let error :=
    match body with
    | Some e => e
    | None => JObject {[ "detail" := JStr fallback ]}
    end in
  if nullish error then "TypeError"
  else ToString (js_or (get_field error "detail") (VStr fallback)).

(** [handleResponse(await fetch(...))] *)
Definition handleResponse {A : Type} (response : RestResponse A) : Outcome A :=
  match response with
  | RestRejected m => Rejected m
  | RestNotOk body => Rejected (error_detail "An error occurred" body)
  | RestOk data => data
  end.

(** The body of [GET /conversations/:id], as far as [useChat] reads it:
    [messages], absent or an array. *)
Record ConversationData : Type := mkConversationData {
  data_messages : option (list Message);
}.

(* ===================================================================== *)
(** * useChat: loading, leaving and listing conversations                 *)
(* ===================================================================== *)

(** [loadConversations()]: [data] is the parsed list, or [null]. *)
Definition loadConversations
    (response : RestResponse (option (list Conversation))) (w : World) : World :=
  match handleResponse response with
  | Resolved data => setConversations (λ _, default [] data) w
  | Rejected _ =>
      toast_fire (mkToast "Failed to load conversations" toast_error None) w
  end.

(** [loadConversation(id)] *)
Definition loadConversation (id : JsValue)
    (response : RestResponse ConversationData) (w : World) : World :=
  if negb (truthy id)
  then setCurrentConversationId VNull (setMessages (λ _, []) w)
  else
    match handleResponse response with
    | Resolved data =>
        let loadedMessages := default [] (data_messages data) in
        let '(storedError, w) := StickyStore.getErrorForConversation id w in
        let w :=
          match storedError with
          | Some e =>
              setMessages (λ _, loadedMessages ++ [mkMessage RoleError e]) w
          | None => setMessages (λ _, loadedMessages) w
          end in
        setCurrentConversationId id w
    | Rejected _ =>
        navigate "/"
          (toast_fire (mkToast "Failed to load conversation" toast_error None) w)
    end.

(** [newChat()] *)
Definition newChat (w : World) : World :=
  setStreamingContent EmptyString
    (setCurrentConversationId VNull (setMessages (λ _, []) w)).

(** The urls a cycle navigates to: one per [conversation] event flagged as
    new, in arrival order. *)
Definition new_conversation_urls (evs : list ProtocolEvent) : list string :=
  flat_map
    (λ ev,
       match ev_type ev with
       | EvConversation =>
           if nullish (ev_data ev) then []
           else if truthy (get_field (ev_data ev) "is_new")
           then ["/chat/" +:+ ToString (get_field (ev_data ev) "conversation_id")]
           else []
       | _ => []
       end)
    evs.

(** The content the [error] case shows for a message. *)
Definition error_display (m : string) : string :=
  if is_limit_error m then banner +:+ m else m.

(** The ledger the store operations start from: the stored one, or the empty
    one when nothing is stored or the stored text does not parse. *)
Definition ledger_of (w : World) : gmap string StickyError :=
  (StickyStore.getStoredErrors w).1.

(** The session while a cycle started in [w0] with [content] streams: still
    loading, the transcript extended by the optimistic message only, the
    buffer showing what has been accumulated, the ledger as it was, and the
    active conversation being the one the callback is bound to. *)
Definition streaming_state (w0 : World) (content : string) (c : Cycle) : Prop :=
  isLoading (world c) = true
  ∧ messages (world c) = messages w0 ++ [mkMessage RoleUser content]
  ∧ streamingContent (world c) = accumulatedContent c
  ∧ localStorage (world c) = localStorage w0
  ∧ currentConversationId (world c) = newConversationId c.

(** What holds of a cycle started in [w0] after the events [evs]: the
    [summary], and the [streaming_state] as long as no terminal event has
    been received. *)
Definition cycle_inv (w0 : World) (content : string)
    (evs : list ProtocolEvent) (c : Cycle) : Prop :=
  summary (currentConversationId w0) (quota_exceeded (localStorage w0)) evs c
  ∧ ((∀ ev, ev ∈ evs → terminal ev = false) → streaming_state w0 content c).

(* ===================================================================== *)
(** * The toast provider                                                  *)
(* ===================================================================== *)

Module ToastProvider.

Inductive ToastKind : Type := kind_info | kind_success | kind_warning | kind_error.

(** [{ id, message, type }] *)
Record ToastItem : Type := mkToastItem {
  item_id : Z;
  item_message : string;
  item_kind : ToastKind;
}.

(** A pending [setTimeout]: when it is due and the id its callback filters
    out. *)
Record Timer : Type := mkTimer { due : Z; target : Z }.

(** The [toasts] state and the timers not yet fired. *)
Record State : Type := mkState { shown : list ToastItem; timers : list Timer }.

(** [prev.filter((t) => t.id !== id)] *)
Definition without (id : Z) (prev : list ToastItem) : list ToastItem :=
  List.filter (λ t, negb (bool_decide (item_id t = id))) prev.

(** [removeToast(id)] *)
Definition removeToast (id : Z) (st : State) : State :=
  mkState (without id (shown st)) (timers st).

(** The delay [setTimeout] is given is converted to a 32-bit signed integer
    ([long] in its interface: the number modulo 2^32, read as signed). *)
Definition ToInt32 (n : Z) : Z := (n + 2 ^ 31) mod 2 ^ 32 - 2 ^ 31.

(** The delay of [setTimeout(callback, duration)]: a negative delay counts
    as 0. *)
Definition timeout_delay (duration : Z) : Z := Z.max 0 (ToInt32 duration).

(** [addToast(message, type = "info", duration = 5000)], called when
    [Date.now()] is [now]; [None] stands for an omitted argument. *)
Definition addToast (message : string) (kind : option ToastKind)
    (duration : option Z) (now : Z) (st : State) : Z * State :=
  let kind := default kind_info kind in
  let duration := default 5000 duration in
  let id := now in
  let shown' := shown st ++ [mkToastItem id message kind] in
  if 0 <? duration
  then (id, mkState shown' (timers st ++ [mkTimer (now + timeout_delay duration) id]))
  else (id, mkState shown' (timers st)).

(** Time passes until [time]: the timers due by then fire, each filtering
    its id out. *)
Definition elapse (time : Z) (st : State) : State :=
  mkState
    (fold_left (λ prev tm, without (target tm) prev)
       (List.filter (λ tm, due tm <=? time) (timers st)) (shown st))
    (List.filter (λ tm, negb (due tm <=? time)) (timers st)).

(** [toast.error(message, duration)] and its siblings. *)
Definition toast_call (kind : ToastKind) (message : string)
    (duration : option Z) (now : Z) (st : State) : Z * State :=
  addToast message (Some kind) duration now st.

End ToastProvider.

(* ===================================================================== *)
(** * The authentication provider and the route guards                    *)
(* ===================================================================== *)

Module Auth.

(** The state of [AuthProvider] and the [token] item of [localStorage]
    ([storage_full]: [setItem] throws). *)
Record State : Type := mkState {
  user : option json;              (* None: null *)
  loading : bool;
  error : option string;           (* None: null *)
  token : option string;           (* localStorage.getItem("token") *)
  storage_full : bool;
}.

Definition setUser (u : option json) (st : State) : State :=
  mkState u (loading st) (error st) (token st) (storage_full st).
Definition setLoading (b : bool) (st : State) : State :=
  mkState (user st) b (error st) (token st) (storage_full st).
Definition setError (e : option string) (st : State) : State :=
  mkState (user st) (loading st) e (token st) (storage_full st).
Definition setToken (t : option string) (st : State) : State :=
  mkState (user st) (loading st) (error st) t (storage_full st).

(** ToBoolean of a parsed body. *)
Definition truthy_json (j : json) : bool :=
  match j with
  | JPrim v => truthy (Some v)
  | JObject _ => true
  end.

(** [isAuthenticated: !!user] *)
Definition isAuthenticated (st : State) : bool :=
  match user st with
  | None => false
  | Some u => truthy_json u
  end.

(** [authHeaders()] *)
Definition authHeaders (st : State) : list (string * string) :=
  ("Content-Type", "application/json")
  :: match token st with
     | Some t => if truthy (VStr t) then [("Authorization", "Bearer " +:+ t)] else []
     | None => []
     end.

(** The body of a successful login. *)
Record LoginData : Type := mkLoginData { access_token : JsValue }.

(** [login(username, password)], against what the server answers to the
    login request and then to [getMe]. *)
Definition login (login_response : RestResponse LoginData)
    (me_response : RestResponse json) (st : State) : Outcome json * State :=
  let st := setError None st in
  match handleResponse login_response with
  | Rejected m => (Rejected m, setError (Some m) st)
  | Resolved data =>
      if storage_full st
      then (Rejected "QuotaExceededError", setError (Some "QuotaExceededError") st)
      else
        let st := setToken (Some (ToString (access_token data))) st in
        match handleResponse me_response with
        | Rejected m => (Rejected m, setError (Some m) st)
        | Resolved userData => (Resolved userData, setUser (Some userData) st)
        end
  end.

(** [register(username, password)] *)
Definition register (register_response : RestResponse json)
    (login_response : RestResponse LoginData)
    (me_response : RestResponse json) (st : State) : Outcome json * State :=
  let st := setError None st in
  match handleResponse register_response with
  | Rejected m => (Rejected m, setError (Some m) st)
  | Resolved _ =>
      match login login_response me_response st with
      | (Rejected m, st') => (Rejected m, setError (Some m) st')
      | (Resolved u, st') => (Resolved u, st')
      end
  end.

(** [logout()] *)
Definition logout (st : State) : State := setUser None (setToken None st).

(** The effect run on mount: a stored token is checked with [getMe]. *)
Definition check_session (me_response : RestResponse json) (st : State) : State :=
  match token st with
  | Some t =>
      if truthy (VStr t)
      then
        match handleResponse me_response with
        | Resolved userData => setLoading false (setUser (Some userData) st)
        | Rejected _ => setLoading false (setToken None st)
        end
      else setLoading false st
  | None => setLoading false st
  end.

(** What a route wrapper renders. *)
Inductive Rendered : Type :=
| Spinner
| NavigateTo (path : string)
| Children.

(** [ProtectedRoute] and [PublicRoute] of [App.jsx]. *)
Definition ProtectedRoute (st : State) : Rendered :=
  if loading st then Spinner
  else if negb (isAuthenticated st) then NavigateTo "/login"
  else Children.

Definition PublicRoute (st : State) : Rendered :=
  if loading st then Spinner
  else if isAuthenticated st then NavigateTo "/"
  else Children.

End Auth.

(* ===================================================================== *)
(** * Sample responses and provider states                                *)
(* ===================================================================== *)

(** The history the server holds for [c1]. *)
Definition history_c1 : ConversationData :=
  mkConversationData (Some [mkMessage RoleUser "hello"]).

Definition profile_ann : json := JObject {[ "username" := JStr "ann" ]}.

Definition login_ok : RestResponse Auth.LoginData :=
  RestOk (Resolved (Auth.mkLoginData (VStr "tok"))).
Definition me_ok : RestResponse json := RestOk (Resolved profile_ann).
Definition me_unauthorized : RestResponse json :=
  RestNotOk (Some (JObject {[ "detail" := JStr "Could not validate credentials" ]})).

(** Nobody signed in, nothing stored, loading over. *)
Definition signed_out : Auth.State := Auth.mkState None false None None false.

Definition no_toasts : ToastProvider.State := ToastProvider.mkState [] [].

(* ===================================================================== *)
(** * Facts about strings and lines                                       *)
(* ===================================================================== *)

Module JsStringFacts.
Import JsString.

Lemma append_nil_l (s : string) : EmptyString +:+ s = s.
Proof. reflexivity. Qed.

Lemma append_cons (c : ascii) (a b : string) :
  String c a +:+ b = String c (a +:+ b).
Proof. reflexivity. Qed.

Lemma append_nil_r (s : string) : s +:+ EmptyString = s.
Proof.
  induction s as [|c s IH]; [reflexivity |].
  now rewrite append_cons, IH.
Qed.

Lemma append_assoc (a b c : string) : (a +:+ b) +:+ c = a +:+ (b +:+ c).
Proof.
  induction a as [|x a IH]; [reflexivity |].
  now rewrite !append_cons, IH.
Qed.

Lemma split_lf_not_nil (s : string) : split_lf s ≠ [].
Proof.
  induction s as [|c s IH]; simpl; [discriminate |].
  destruct (decide (c = LF)); [discriminate |].
  destruct (split_lf s); discriminate.
Qed.

Lemma pop_spec (l : list string) : pop l = (removelast l, last l).
Proof.
  induction l as [|x [|y l] IH]; try reflexivity.
  change (pop (x :: y :: l)) with (let '(i, t) := pop (y :: l) in (x :: i, t)).
  rewrite IH. reflexivity.
Qed.

Lemma last_split_lf (s : string) : ∃ p, last (split_lf s) = Some p.
Proof.
  destruct (last (split_lf s)) as [p|] eqn:E; [eauto |].
  apply last_None in E. now apply split_lf_not_nil in E.
Qed.

Lemma split_lf_no_lf (s : string) : has_lf s = false → split_lf s = [s].
Proof.
  induction s as [|c s IH]; simpl; [reflexivity |].
  destruct (decide (c = LF)); [discriminate |].
  intros H. now rewrite (IH H).
Qed.

(** No segment of a split contains a line feed. *)
Lemma split_lf_segments (s x : string) : x ∈ split_lf s → has_lf x = false.
Proof.
  revert x. induction s as [|c s IH]; simpl; intros x Hx.
  - apply list_elem_of_singleton in Hx. now subst.
  - destruct (decide (c = LF)) as [->|Hc].
    + apply elem_of_cons in Hx as [->|Hx]; [reflexivity | now apply IH].
    + destruct (split_lf s) as [|h t] eqn:E.
      * apply list_elem_of_singleton in Hx. subst. simpl.
        now destruct (decide (c = LF)).
      * apply elem_of_cons in Hx as [->|Hx].
        -- simpl. destruct (decide (c = LF)); [contradiction |].
           apply IH. left.
        -- apply IH. now right.
Qed.

(** Splitting a concatenation: the last segment of the left part is glued
    to the first segment of the right part. *)
Lemma split_lf_app (a b : string) :
  split_lf (a +:+ b) =
  removelast (split_lf a)
  ++ (default EmptyString (last (split_lf a)) +:+ default EmptyString (head (split_lf b)))
     :: tail (split_lf b).
Proof.
  induction a as [|c a IH].
  - rewrite append_nil_l. simpl.
    destruct (split_lf b) eqn:E; [now apply split_lf_not_nil in E | reflexivity].
  - rewrite append_cons. simpl. destruct (decide (c = LF)).
    + rewrite IH. destruct (split_lf a) as [|h t] eqn:E;
        [now apply split_lf_not_nil in E |]. reflexivity.
    + rewrite IH. destruct (split_lf a) as [|h [|h' t]] eqn:E.
      * now apply split_lf_not_nil in E.
      * reflexivity.
      * reflexivity.
Qed.

(** Joining the segments of a split gives the text back: splitting loses
    nothing and repeats nothing. *)
Lemma join_split_lf (s : string) : join_lf (split_lf s) = s.
Proof.
  induction s as [|c s IH]; simpl; [reflexivity |].
  destruct (decide (c = LF)) as [->|Hc].
  - destruct (split_lf s) eqn:E; [now apply split_lf_not_nil in E |].
    cbn [join_lf] in *. now rewrite IH.
  - destruct (split_lf s) as [|h [|h' t]] eqn:E.
    + now apply split_lf_not_nil in E.
    + simpl in *. now subst.
    + cbn [join_lf] in *. now rewrite append_cons, IH.
Qed.

Lemma concat_app (l1 l2 : list string) :
  concat (l1 ++ l2) = concat l1 +:+ concat l2.
Proof.
  induction l1 as [|x l1 IH]; simpl; [reflexivity |].
  now rewrite IH, append_assoc.
Qed.

Lemma partial_line_no_lf (s : string) : has_lf (partial_line s) = false.
Proof.
  unfold partial_line. destruct (last_split_lf s) as [p Hp]. rewrite Hp.
  apply (split_lf_segments s). apply last_Some_elem_of in Hp. exact Hp.
Qed.

Lemma complete_lines_no_lf (s : string) : has_lf s = false → complete_lines s = [].
Proof. intros H. unfold complete_lines. now rewrite split_lf_no_lf. Qed.

Lemma partial_line_id (s : string) : has_lf s = false → partial_line s = s.
Proof. intros H. unfold partial_line. now rewrite split_lf_no_lf. Qed.

(** Reading on after a chunk: the complete lines of the whole text are those
    of the chunk followed by those of the kept partial line and the rest. *)
Lemma complete_lines_app (a b : string) :
  complete_lines (a +:+ b) = complete_lines a ++ complete_lines (partial_line a +:+ b).
Proof.
  unfold complete_lines.
  pose proof (split_lf_app (partial_line a) b) as HH.
  rewrite (split_lf_app a b), HH.
  rewrite (split_lf_no_lf _ (partial_line_no_lf a)). simpl.
  rewrite removelast_app by discriminate. reflexivity.
Qed.

Lemma partial_line_app (a b : string) :
  partial_line (a +:+ b) = partial_line (partial_line a +:+ b).
Proof.
  pose proof (split_lf_app (partial_line a) b) as HH.
  unfold partial_line at 1 2.
  rewrite (split_lf_app a b), HH.
  rewrite (split_lf_no_lf _ (partial_line_no_lf a)). simpl.
  rewrite last_app_cons. reflexivity.
Qed.

Lemma join_lf_cons (x : string) (l : list string) :
  l ≠ [] → join_lf (x :: l) = x +:+ String LF (join_lf l).
Proof. destruct l; [congruence | reflexivity]. Qed.

Lemma join_lf_snoc (l : list string) (p : string) :
  join_lf (l ++ [p]) = concat (map (λ x, x +:+ String LF EmptyString) l) +:+ p.
Proof.
  induction l as [|x l IH]; [reflexivity |].
  change ((x :: l) ++ [p]) with (x :: (l ++ [p])).
  rewrite join_lf_cons by (destruct l; discriminate).
  rewrite IH. cbn [map concat]. now rewrite !append_assoc.
Qed.

(** A text is its complete lines, each followed by a line feed, and then its
    partial line. *)
Lemma lines_account (s : string) :
  concat (map (λ l, l +:+ String LF EmptyString) (complete_lines s)) +:+ partial_line s = s.
Proof.
  unfold complete_lines, partial_line.
  destruct (last_split_lf s) as [p Hp]. rewrite Hp.
  pose proof (join_split_lf s) as Hj.
  apply last_Some in Hp as [l' Hl]. rewrite Hl in Hj |- *.
  rewrite removelast_last. rewrite join_lf_snoc in Hj. exact Hj.
Qed.





Lemma banner_not_empty (m : string) : banner +:+ m ≠ EmptyString.
Proof. discriminate. Qed.


End JsStringFacts.

(* ===================================================================== *)
(** * Facts about the decoder                                             *)
(* ===================================================================== *)

Module DecoderFacts.
Import JsString JsStringFacts.

Section Generic.
Context {S : Type}.
Variable JSON_parse : string → option json.
Variable log : string → S → S.
Variable onEvent : ProtocolEvent → S → Result S.

Lemma process_line_action (line : string) (s : S) :
  process_line JSON_parse log onEvent line s
  = perform log onEvent (line_action JSON_parse line) s.
Proof.
  unfold process_line, line_action.
  destruct (startsWith "event: " line); [reflexivity |].
  destruct (startsWith "data: " line); [| reflexivity].
  destruct (JSON_parse (slice 6 line)) as [data|]; [| reflexivity].
  unfold dispatch, infer_event.
  repeat (match goal with |- context [if ?b then _ else _] => destruct b end;
          try reflexivity).
Qed.

Lemma process_lines_app (l1 l2 : list string) (s : S) :
  process_lines JSON_parse log onEvent (l1 ++ l2) s
  = process_lines JSON_parse log onEvent l2 (process_lines JSON_parse log onEvent l1 s).
Proof. unfold process_lines. apply fold_left_app. Qed.

Lemma process_lines_cons (l : string) (ls : list string) (s : S) :
  process_lines JSON_parse log onEvent (l :: ls) s
  = process_lines JSON_parse log onEvent ls
      (perform log onEvent (line_action JSON_parse l) s).
Proof. unfold process_lines. cbn [fold_left]. now rewrite process_line_action. Qed.

Lemma read_loop_lines (chunks : list string) (ending : StreamEnd)
    (buffer : string) (s : S) :
  read_loop JSON_parse log onEvent chunks ending buffer s
  = finish ending
      (process_lines JSON_parse log onEvent (lines_read chunks buffer).1 s).
Proof.
  revert buffer s. induction chunks as [|value rest IH]; intros buffer s.
  - destruct ending; reflexivity.
  - cbn [read_loop lines_read].
    destruct (pop (split_lf (buffer +:+ value))) as [lines lst].
    rewrite IH. destruct (lines_read rest (default EmptyString lst)) as [more final].
    cbn [fst]. now rewrite process_lines_app.
Qed.

(** A Hoare-style rule for the lines of a stream: a property of the events
    fired so far and of the state, kept by every callback and by console
    diagnostics, holds when the lines are exhausted. *)
Lemma process_lines_invariant (P : list ProtocolEvent → S → Prop) :
  (∀ evs s msg, P evs s → P evs (log msg s)) →
  (∀ evs ev s, P evs s → P (evs ++ [ev]) (state_of (onEvent ev s))) →
  ∀ lines evs s,
    P evs s →
    P (evs ++ flat_map (λ l, fired (line_action JSON_parse l)) lines)
      (process_lines JSON_parse log onEvent lines s).
Proof.
  intros Hlog Hstep lines. induction lines as [|l ls IH]; intros evs s HP.
  - cbn. now rewrite app_nil_r.
  - rewrite process_lines_cons. cbn [flat_map]. rewrite app_assoc.
    apply IH. destruct (line_action JSON_parse l) as [| |ev]; cbn.
    + now rewrite app_nil_r.
    + rewrite app_nil_r. now apply Hlog.
    + specialize (Hstep evs ev s HP).
      destruct (onEvent ev s) as [s'|m s']; cbn in *; [exact Hstep |].
      now apply Hlog.
Qed.

End Generic.

Lemma state_of_finish {S : Type} (ending : StreamEnd) (s : S) :
  state_of (finish ending s) = s.
Proof. now destruct ending. Qed.

Lemma lines_read_canonical (chunks : list string) (buffer : string) :
  has_lf buffer = false →
  lines_read chunks buffer
  = (complete_lines (buffer +:+ concat chunks), partial_line (buffer +:+ concat chunks)).
Proof.
  revert buffer. induction chunks as [|value rest IH]; intros buffer Hb.
  - cbn [lines_read concat]. rewrite append_nil_r.
    now rewrite complete_lines_no_lf, partial_line_id.
  - cbn [lines_read concat]. rewrite pop_spec.
    fold (complete_lines (buffer +:+ value)).
    fold (partial_line (buffer +:+ value)).
    rewrite IH by apply partial_line_no_lf.
    rewrite <- append_assoc.
    now rewrite <- complete_lines_app, <- partial_line_app.
Qed.

Lemma lines_read_start (chunks : list string) :
  lines_read chunks EmptyString
  = (complete_lines (concat chunks), partial_line (concat chunks)).
Proof. now rewrite lines_read_canonical. Qed.

(** A stream that ends normally is decoded to the end: no line, whatever it
    holds and whatever the callback does with it, makes the loop throw. *)
Lemma read_loop_returns {S : Type} (JSON_parse : string → option json)
    (log : string → S → S) (onEvent : ProtocolEvent → S → Result S)
    (chunks : list string) (buffer : string) (s : S) :
  throws (read_loop JSON_parse log onEvent chunks EndOfStream buffer s) = false.
Proof. now rewrite read_loop_lines. Qed.

(** The recording callback sees the events of the lines, in order. *)
Lemma recorded_lines (JSON_parse : string → option json) (lines : list string)
    (seen : list ProtocolEvent) :
  process_lines JSON_parse (λ _ seen, seen) record_event lines seen
  = seen ++ flat_map (λ l, fired (line_action JSON_parse l)) lines.
Proof.
  revert seen. induction lines as [|l ls IH]; intros seen.
  - cbn. now rewrite app_nil_r.
  - rewrite process_lines_cons, IH. cbn [flat_map]. rewrite app_assoc. f_equal.
    destruct (line_action JSON_parse l); cbn; now rewrite ?app_nil_r.
Qed.

Lemma decoded_events_lines (JSON_parse : string → option json) (chunks : list string) :
  decoded_events JSON_parse chunks
  = flat_map (λ l, fired (line_action JSON_parse l)) (complete_lines (concat chunks)).
Proof.
  unfold decoded_events. rewrite read_loop_lines, lines_read_start.
  cbn [fst finish state_of]. now rewrite recorded_lines.
Qed.

(** The rule above, for a whole stream. *)
Lemma read_loop_invariant {S : Type} (JSON_parse : string → option json)
    (log : string → S → S) (onEvent : ProtocolEvent → S → Result S)
    (P : list ProtocolEvent → S → Prop) :
  (∀ evs s msg, P evs s → P evs (log msg s)) →
  (∀ evs ev s, P evs s → P (evs ++ [ev]) (state_of (onEvent ev s))) →
  ∀ chunks ending s,
    P [] s →
    P (decoded_events JSON_parse chunks)
      (state_of (read_loop JSON_parse log onEvent chunks ending EmptyString s)).
Proof.
  intros Hlog Hstep chunks ending s HP.
  rewrite read_loop_lines, lines_read_start, decoded_events_lines.
  cbn [fst]. rewrite state_of_finish.
  now apply (process_lines_invariant JSON_parse log onEvent P Hlog Hstep _ []).
Qed.

Lemma split_lf_line (l : string) :
  has_lf l = false → split_lf (l +:+ String LF EmptyString) = [l; EmptyString].
Proof.
  intros H. rewrite split_lf_app, (split_lf_no_lf l H). cbn.
  destruct (decide (LF = LF)); [| congruence]. cbn. now rewrite append_nil_r.
Qed.

(** A chunk made of one whole line: the line is processed, nothing is kept. *)
Lemma lines_read_line (l : string) (more : list string) :
  has_lf l = false →
  lines_read ((l +:+ String LF EmptyString) :: more) EmptyString
  = (l :: (lines_read more EmptyString).1, (lines_read more EmptyString).2).
Proof.
  intros H. cbn [lines_read]. rewrite append_nil_l, (split_lf_line l H). cbn.
  now destruct (lines_read more EmptyString).
Qed.


Lemma has_lf_app (a b : string) : has_lf (a +:+ b) = has_lf a || has_lf b.
Proof.
  induction a as [|c a IH]; [reflexivity |].
  rewrite append_cons. cbn. now destruct (decide (c = LF)).
Qed.

Lemma concat_singleton (s : string) : concat [s] = s.
Proof. cbn. apply append_nil_r. Qed.

Lemma defined_iff_present (fields : gmap string JsonValue) (k : string) :
  negb (bool_decide (fields !! k = VUndefined)) = bool_decide (k ∈ dom fields).
Proof.
  destruct (fields !! k) as [v|] eqn:E.
  - rewrite bool_decide_eq_false_2 by discriminate.
    symmetry. apply bool_decide_eq_true_2, elem_of_dom. eauto.
  - rewrite bool_decide_eq_true_2 by reflexivity.
    symmetry. apply bool_decide_eq_false_2. now apply not_elem_of_dom.
Qed.

Lemma no_keys_iff_empty (fields : gmap string JsonValue) :
  bool_decide (size fields = 0%nat) = bool_decide (fields = ∅).
Proof. apply bool_decide_ext, map_size_empty_iff. Qed.

Lemma infer_event_object (fields : gmap string JsonValue) :
  infer_event (JObject fields)
  = match inferred_kind fields with
    | Some kind => Fire (mkEvent kind (JObject fields))
    | None => Skip
    end.
Proof.
  unfold infer_event, inferred_kind. cbn [nullish get_field keys_length].
  rewrite !defined_iff_present, no_keys_iff_empty.
  repeat (case_decide;
          [ rewrite bool_decide_eq_true_2 by assumption; reflexivity
          | rewrite bool_decide_eq_false_2 by assumption ]).
  reflexivity.
Qed.

(** Payloads that are not objects: [null] makes the property access throw,
    which the decoder reports; a boolean or the empty string has no keys and
    passes for [done]; a non-empty string has one key per character and
    matches nothing. *)
Lemma infer_event_primitive (v : JsonValue) :
  infer_event (JPrim v)
  = match v with
    | JNull => Diagnose
    | JBool _ => Fire (mkEvent EvDone (JPrim v))
    | JStr s => if decide (s = EmptyString) then Fire (mkEvent EvDone (JPrim v)) else Skip
    end.
Proof.
  destruct v as [| b | s]; try reflexivity.
  destruct s; reflexivity.
Qed.

Lemma line_action_data (JSON_parse : string → option json) (text : string) :
  line_action JSON_parse ("data: " +:+ text)
  = match JSON_parse text with
    | None => Diagnose
    | Some data => infer_event data
    end.
Proof. reflexivity. Qed.

Lemma infer_event_classified (data : json) : infer_event data = classified data.
Proof.
  destruct data as [v|fields].
  - now rewrite infer_event_primitive.
  - now rewrite infer_event_object.
Qed.

Lemma line_action_payload (JSON_parse : string → option json) (text : string) :
  line_action JSON_parse ("data: " +:+ text) = payload_action (JSON_parse text).
Proof.
  rewrite line_action_data. unfold payload_action.
  destruct (JSON_parse text); [apply infer_event_classified | reflexivity].
Qed.


End DecoderFacts.

(* ===================================================================== *)
(** * Facts about the store and the session                               *)
(* ===================================================================== *)

Module SessionFacts.
Import JsString JsStringFacts DecoderFacts StickyStore.

(** ** The store *)

Lemma getStoredErrors_storage (w : World) :
  localStorage (getStoredErrors w).2 = localStorage w.
Proof. unfold getStoredErrors. now destruct (chat_errors (localStorage w)). Qed.

Lemma setItem_ok (errors : gmap string StickyError) (w : World) :
  quota_exceeded (localStorage w) = false →
  setItem errors w
  = Returned (setLocalStorage (mkLocalStorage (Ledger errors) false) w).
Proof. intros H. unfold setItem. now rewrite H. Qed.

Lemma setItem_fails (errors : gmap string StickyError) (w : World) :
  quota_exceeded (localStorage w) = true →
  setItem errors w = Thrown "QuotaExceededError" w.
Proof. intros H. unfold setItem. now rewrite H. Qed.

Lemma setItem_quota (errors : gmap string StickyError) (w : World) :
  quota_exceeded (localStorage (state_of (setItem errors w)))
  = quota_exceeded (localStorage w).
Proof. unfold setItem. now destruct (quota_exceeded (localStorage w)) eqn:E. Qed.

Lemma removeError_quota (cid : JsValue) (w : World) :
  quota_exceeded (localStorage (state_of (removeError cid w)))
  = quota_exceeded (localStorage w).
Proof.
  unfold removeError. destruct (getStoredErrors w) as [errors w1] eqn:E.
  rewrite setItem_quota. now rewrite <- (getStoredErrors_storage w), E.
Qed.

Lemma storeError_quota (cid : JsValue) (content : string) (w : World) :
  quota_exceeded (localStorage (state_of (storeError cid content w)))
  = quota_exceeded (localStorage w).
Proof.
  unfold storeError. destruct (getStoredErrors w) as [errors w1] eqn:E.
  rewrite setItem_quota. now rewrite <- (getStoredErrors_storage w), E.
Qed.

(** With the quota exhausted both writers throw, whatever the ledger. *)
Lemma write_failure_throws (cid : JsValue) (content : string) (w : World) :
  quota_exceeded (localStorage w) = true →
  throws (storeError cid content w) = true ∧ throws (removeError cid w) = true.
Proof.
  intros Hq. unfold storeError, removeError.
  destruct (getStoredErrors w) as [errors w1] eqn:E.
  assert (Hq1 : quota_exceeded (localStorage w1) = true)
    by now rewrite <- Hq, <- (getStoredErrors_storage w), E.
  now rewrite !(setItem_fails _ _ Hq1).
Qed.

(** [get] reads the ledger and nothing else. *)
Lemma sticky_get_storage (cid : JsValue) (w1 w2 : World) :
  localStorage w1 = localStorage w2 → sticky_get cid w1 = sticky_get cid w2.
Proof.
  intros H. unfold sticky_get, getErrorForConversation, getStoredErrors.
  rewrite H. now destruct (chat_errors (localStorage w2)).
Qed.

Lemma sticky_get_removeError (cid : JsValue) (w : World) :
  quota_exceeded (localStorage w) = false →
  ∃ w', removeError cid w = Returned w' ∧ sticky_get cid w' = None.
Proof.
  intros Hq. unfold removeError. destruct (getStoredErrors w) as [errors w1] eqn:E.
  assert (Hq1 : quota_exceeded (localStorage w1) = false)
    by now rewrite <- Hq, <- (getStoredErrors_storage w), E.
  rewrite (setItem_ok _ _ Hq1). eexists. split; [reflexivity |].
  unfold sticky_get, getErrorForConversation, getStoredErrors. cbn.
  now rewrite lookup_delete_eq.
Qed.

(** The own properties after [errors[key] = entry]. *)
Lemma assign_plain (key : string) (entry : StickyError)
    (errors : gmap string StickyError) :
  key ≠ proto_key → assign key entry errors = <[key := entry]> errors.
Proof. intros H. unfold assign. now rewrite decide_False. Qed.

Lemma assign_proto (entry : StickyError) (errors : gmap string StickyError) :
  errors !! proto_key = None → assign proto_key entry errors = errors.
Proof. intros H. unfold assign. now rewrite decide_True, H. Qed.

Lemma assign_own (key : string) (entry : StickyError)
    (errors : gmap string StickyError) :
  is_Some (errors !! key) → assign key entry errors = <[key := entry]> errors.
Proof.
  intros [e He]. unfold assign. rewrite He. now destruct (decide (key = proto_key)).
Qed.

Lemma assign_other (key other : string) (entry : StickyError)
    (errors : gmap string StickyError) :
  other ≠ key → assign key entry errors !! other = errors !! other.
Proof.
  intros H. unfold assign.
  destruct (decide (key = proto_key)); [destruct (errors !! key) |];
    rewrite ?lookup_insert_ne by congruence; reflexivity.
Qed.

Lemma assign_assign (key : string) (first second : StickyError)
    (errors : gmap string StickyError) :
  assign key second (assign key first errors) = assign key second errors.
Proof.
  unfold assign. destruct (decide (key = proto_key)) as [E|E].
  - destruct (errors !! key) eqn:H.
    + now rewrite lookup_insert_eq, insert_insert_eq.
    + now rewrite H.
  - apply insert_insert_eq.
Qed.

Lemma sticky_get_storeError (cid : JsValue) (content : string) (w : World) :
  quota_exceeded (localStorage w) = false →
  content ≠ EmptyString →
  ToString cid ≠ proto_key →
  ∃ w', storeError cid content w = Returned w' ∧ sticky_get cid w' = Some content.
Proof.
  intros Hq Hc Hk. unfold storeError. destruct (getStoredErrors w) as [errors w1] eqn:E.
  assert (Hq1 : quota_exceeded (localStorage w1) = false)
    by now rewrite <- Hq, <- (getStoredErrors_storage w), E.
  rewrite (setItem_ok _ _ Hq1). eexists. split; [reflexivity |].
  unfold sticky_get, getErrorForConversation, getStoredErrors. cbn.
  rewrite (assign_plain _ _ _ Hk), lookup_insert_eq. cbn. now rewrite decide_False.
Qed.

(** The store operations touch the ledger and the console only. *)
Lemma store_frame (cid : JsValue) (content : string) (w : World) :
  let w1 := state_of (storeError cid content w) in
  let w2 := state_of (removeError cid w) in
  (messages w1 = messages w ∧ isLoading w1 = isLoading w
   ∧ streamingContent w1 = streamingContent w ∧ toasts w1 = toasts w)
  ∧ (messages w2 = messages w ∧ isLoading w2 = isLoading w
     ∧ streamingContent w2 = streamingContent w ∧ toasts w2 = toasts w).
Proof.
  unfold storeError, removeError, getStoredErrors, setItem.
  destruct (chat_errors (localStorage w)); cbn;
    destruct (quota_exceeded (localStorage w)); cbn; easy.
Qed.

(** ** One cycle *)

Lemma store_op_locals (op : World → Result World) (c : Cycle) :
  newConversationId (state_of (store_op op c)) = newConversationId c
  ∧ accumulatedContent (state_of (store_op op c)) = accumulatedContent c
  ∧ world (state_of (store_op op c)) = state_of (op (world c)).
Proof. unfold store_op. now destruct (op (world c)). Qed.

Lemma streamed_content_snoc (evs : list ProtocolEvent) (ev : ProtocolEvent) :
  streamed_content (evs ++ [ev])
  = match ev_type ev with
    | EvDelta =>
        if nullish (ev_data ev) then streamed_content evs
        else streamed_content evs +:+ ToString (get_field (ev_data ev) "content")
    | _ => streamed_content evs
    end.
Proof. unfold streamed_content. now rewrite fold_left_app. Qed.

Lemma cycle_conversation_snoc (cid : JsValue) (evs : list ProtocolEvent)
    (ev : ProtocolEvent) :
  cycle_conversation cid (evs ++ [ev])
  = match ev_type ev with
    | EvConversation =>
        if nullish (ev_data ev) then cycle_conversation cid evs
        else get_field (ev_data ev) "conversation_id"
    | _ => cycle_conversation cid evs
    end.
Proof. unfold cycle_conversation. now rewrite fold_left_app. Qed.

Lemma summary_step (cid : JsValue) (q : bool) (evs : list ProtocolEvent)
    (ev : ProtocolEvent) (c : Cycle) :
  summary cid q evs c → summary cid q (evs ++ [ev]) (state_of (onEvent ev c)).
Proof.
  intros (Hacc & Hid & Hq). unfold summary.
  rewrite streamed_content_snoc, cycle_conversation_snoc.
  destruct ev as [ty data]. unfold onEvent, reading. cbn [ev_type ev_data].
  destruct ty.
  - destruct (nullish data); [easy |].
    now destruct (truthy (get_field data "is_new")).
  - destruct (nullish data); [easy |]. cbn. now rewrite Hacc.
  - now destruct (nullish data).
  - destruct (truthy (VStr (accumulatedContent c))); [| easy].
    destruct (truthy (newConversationId c)) eqn:Ht; [| cbn; rewrite Ht; easy].
    cbn [on_world newConversationId]. rewrite Ht.
    match goal with |- context [store_op ?op ?c'] =>
      destruct (store_op_locals op c') as (H1 & H2 & H3);
      pose proof (removeError_quota (newConversationId c) (world c')) as H4;
      destruct (store_op op c') as [c1|m c1] eqn:E end;
    cbn in *; rewrite ?H1, ?H2, ?H3 in *; rewrite ?H4; easy.
  - destruct (nullish data); [easy |].
    destruct (js_or (get_field data "message") (VStr "An error occurred"))
      as [[| |m]|]; try easy.
    destruct (truthy (newConversationId c)); [| easy].
    match goal with |- context [store_op (storeError ?i ?d) ?c'] =>
      destruct (store_op_locals (storeError i d) c') as (H1 & H2 & H3);
      pose proof (storeError_quota i d (world c')) as H4;
      destruct (store_op (storeError i d) c') as [c1|m' c1] eqn:E end;
    cbn in *; rewrite ?H1, ?H2, ?H3 in *; rewrite ?H4; easy.
Qed.

Lemma summary_log (cid : JsValue) (q : bool) (evs : list ProtocolEvent)
    (c : Cycle) (msg : string) :
  summary cid q evs c → summary cid q evs (on_world (console_error msg) c).
Proof. now intros (? & ? & ?). Qed.


Lemma truthy_string (s : string) : s ≠ EmptyString → truthy (VStr s) = true.
Proof. intros H. cbn. now rewrite decide_False. Qed.

(** How [sendMessage] ends, by the way the response ends, for the callback
    of any render that saw the session idle. *)
Lemma sendMessage_stream_from (JSON_parse : string → option json) (r : Render)
    (content : string) (chunks : list string) (w : World) :
  render_isLoading r = false →
  sendMessage JSON_parse r content (Ok chunks EndOfStream) w
  = world (state_of (session_chatApi JSON_parse content (render_currentConversationId r)
                       (Ok chunks EndOfStream) (begin_cycle r content w))).
Proof.
  intros Hidle. unfold sendMessage, session_chatApi, chatApi_sendMessage.
  rewrite Hidle, read_loop_lines. reflexivity.
Qed.

Lemma sendMessage_read_error_from (JSON_parse : string → option json) (r : Render)
    (content : string) (chunks : list string) (m : string) (w : World) :
  render_isLoading r = false →
  sendMessage JSON_parse r content (Ok chunks (ReadError m)) w
  = world (on_transport_error m
             (state_of (session_chatApi JSON_parse content (render_currentConversationId r)
                          (Ok chunks (ReadError m)) (begin_cycle r content w)))).
Proof.
  intros Hidle. unfold sendMessage, session_chatApi, chatApi_sendMessage.
  rewrite Hidle, read_loop_lines. reflexivity.
Qed.

Lemma sendMessage_stream (JSON_parse : string → option json) (content : string)
    (chunks : list string) (w : World) :
  isLoading w = false →
  sendMessage JSON_parse (render w) content (Ok chunks EndOfStream) w
  = world (state_of (session_chatApi JSON_parse content (currentConversationId w)
                       (Ok chunks EndOfStream) (begin_cycle (render w) content w))).
Proof. intros Hidle. now apply sendMessage_stream_from. Qed.

(** The rule of [read_loop_invariant] for a cycle of the session. *)
Lemma cycle_invariant (JSON_parse : string → option json)
    (P : list ProtocolEvent → Cycle → Prop) :
  (∀ evs c msg, P evs c → P evs (on_world (console_error msg) c)) →
  (∀ evs ev c, P evs c → P (evs ++ [ev]) (state_of (onEvent ev c))) →
  ∀ content chunks ending cid c0,
    P [] (on_world (fetch_chat (mkRequest content (js_or cid VNull))) c0) →
    P (decoded_events JSON_parse chunks)
      (state_of (session_chatApi JSON_parse content cid (Ok chunks ending) c0)).
Proof.
  intros Hlog Hstep content chunks ending cid c0 H0.
  unfold session_chatApi, chatApi_sendMessage.
  now apply (read_loop_invariant JSON_parse _ onEvent P Hlog Hstep).
Qed.


Lemma sync_title_present (cid title : JsValue) (prev : list Conversation) :
  cid ∈ map conv_id prev → sync_title cid title prev = map (retitle cid title) prev.
Proof.
  intros Hin. unfold sync_title.
  replace (existsb _ prev) with true.
  - apply map_ext. intros c. unfold retitle.
    destruct (decide (conv_id c = cid)) as [E|E].
    + now rewrite bool_decide_eq_true_2.
    + now rewrite bool_decide_eq_false_2.
  - symmetry. apply existsb_exists. apply list_elem_of_In, in_map_iff in Hin.
    destruct Hin as (c & <- & Hc). exists c. split; [exact Hc |].
    now apply bool_decide_eq_true_2.
Qed.

Lemma sync_title_absent (cid title : JsValue) (prev : list Conversation) :
  cid ∉ map conv_id prev → sync_title cid title prev = mkConversation cid title ∅ :: prev.
Proof.
  intros Hout. unfold sync_title.
  replace (existsb _ prev) with false; [reflexivity |].
  symmetry. apply not_true_is_false. intros H. apply existsb_exists in H as (c & Hc & E).
  apply bool_decide_eq_true_1 in E. apply Hout. subst cid.
  apply list_elem_of_In, in_map. exact Hc.
Qed.

Lemma map_retitle_ids (cid title : JsValue) (prev : list Conversation) :
  map conv_id (map (retitle cid title) prev) = map conv_id prev.
Proof.
  rewrite map_map. apply map_ext. intros c. unfold retitle.
  now destruct (decide (conv_id c = cid)).
Qed.

Lemma retitle_idem (cid title : JsValue) (c : Conversation) :
  retitle cid title (retitle cid title c) = retitle cid title c.
Proof.
  unfold retitle. destruct (decide (conv_id c = cid)) as [E|E]; cbn.
  - now rewrite decide_True.
  - now rewrite decide_False.
Qed.

Lemma sync_title_in (cid title : JsValue) (prev : list Conversation) :
  cid ∈ map conv_id (sync_title cid title prev).
Proof.
  destruct (decide (cid ∈ map conv_id prev)) as [Hin|Hout].
  - now rewrite sync_title_present, map_retitle_ids.
  - rewrite sync_title_absent by exact Hout. cbn. left.
Qed.

Lemma sync_title_idem (cid title : JsValue) (prev : list Conversation) :
  sync_title cid title (sync_title cid title prev) = sync_title cid title prev.
Proof.
  rewrite (sync_title_present cid title (sync_title cid title prev))
    by apply sync_title_in.
  destruct (decide (cid ∈ map conv_id prev)) as [Hin|Hout].
  - rewrite sync_title_present by exact Hin. rewrite map_map.
    apply map_ext. intros c. apply retitle_idem.
  - rewrite sync_title_absent by exact Hout. cbn [map]. f_equal.
    + unfold retitle. cbn. now rewrite decide_True.
    + rewrite <- (map_id prev) at 2. apply map_ext_in. intros c Hc.
      unfold retitle. rewrite decide_False; [reflexivity |].
      intros E. apply Hout. subst cid. apply list_elem_of_In, in_map. exact Hc.
Qed.


(** Throughout a cycle the conversation the callback is bound to is the
    active conversation of the session. *)
Lemma cycle_bound_to_active (JSON_parse : string → option json)
    (content : string) (chunks : list string) (ending : StreamEnd) (w : World) :
  let c := state_of (session_chatApi JSON_parse content (currentConversationId w)
                       (Ok chunks ending) (begin_cycle (render w) content w)) in
  currentConversationId (world c) = newConversationId c.
Proof.
  apply (cycle_invariant JSON_parse
           (λ _ c, currentConversationId (world c) = newConversationId c)).
  - intros evs c msg H. exact H.
  - intros evs [ty data] c H. unfold onEvent, reading. cbn [ev_type ev_data].
    destruct ty.
    + destruct (nullish data); [exact H |].
      now destruct (truthy (get_field data "is_new")).
    + now destruct (nullish data).
    + now destruct (nullish data).
    + destruct (truthy (VStr (accumulatedContent c))); [| exact H].
      cbn [on_world newConversationId].
      destruct (truthy (newConversationId c)); [| exact H].
      unfold store_op, removeError, getStoredErrors, setItem. cbn.
      destruct (chat_errors (localStorage (world c))); cbn;
        destruct (quota_exceeded (localStorage (world c))); exact H.
    + destruct (nullish data); [exact H |].
      destruct (js_or (get_field data "message") (VStr "An error occurred"))
        as [[| |m]|]; try exact H.
      destruct (truthy (newConversationId c)); [| exact H].
      unfold store_op, storeError, getStoredErrors, setItem. cbn.
      destruct (chat_errors (localStorage (world c))); cbn;
        destruct (quota_exceeded (localStorage (world c))); exact H.
  - reflexivity.
Qed.

Lemma streamed_content_deltas (ds : list string) :
  streamed_content (map delta_event ds) = concat ds.
Proof.
  assert (H : ∀ acc, fold_left
             (λ acc ev,
                match ev_type ev with
                | EvDelta =>
                    if nullish (ev_data ev) then acc
                    else acc +:+ ToString (get_field (ev_data ev) "content")
                | _ => acc
                end) (map delta_event ds) acc = acc +:+ concat ds).
  { induction ds as [|d ds IH]; intros acc; cbn [map fold_left concat].
    - now rewrite append_nil_r.
    - rewrite IH. cbn. rewrite lookup_singleton_eq. cbn. now rewrite append_assoc. }
  apply H.
Qed.

(** The nominal behaviour of a cycle ended by [done], when the ledger can be
    written: the streamed text is committed as one [model] message, if it is
    not empty, and the session is idle again. *)
Lemma done_commits_streamed_content (JSON_parse : string → option json)
    (content : string) (chunks : list string) (w : World)
    (pre : list ProtocolEvent) (d : ProtocolEvent) :
  isLoading w = false →
  quota_exceeded (localStorage w) = false →
  decoded_events JSON_parse chunks = pre ++ [d] →
  ev_type d = EvDone →
  (∀ ev, ev ∈ pre → terminal ev = false) →
  let w' := sendMessage JSON_parse (render w) content (Ok chunks EndOfStream) w in
  messages w'
  = messages w ++ mkMessage RoleUser content
      :: (if decide (streamed_content pre = EmptyString) then []
          else [mkMessage RoleModel (streamed_content pre)])
  ∧ streamingContent w' = EmptyString
  ∧ isLoading w' = false.
Proof.
  intros Hidle Hq Hevs Hd Hpre w'.
  pose (P := λ (evs : list ProtocolEvent) (c : Cycle),
          summary (currentConversationId w) false evs c
          ∧ ((∀ ev, ev ∈ evs → terminal ev = false) →
             messages (world c) = messages w ++ [mkMessage RoleUser content])
          ∧ (∀ pre d, evs = pre ++ [d] → ev_type d = EvDone →
               (∀ ev, ev ∈ pre → terminal ev = false) →
               messages (world c)
               = messages w ++ mkMessage RoleUser content
                   :: (if decide (streamed_content pre = EmptyString) then []
                       else [mkMessage RoleModel (streamed_content pre)])
               ∧ streamingContent (world c) = EmptyString
               ∧ isLoading (world c) = false)).
  assert (HP : P (decoded_events JSON_parse chunks)
                 (state_of (session_chatApi JSON_parse content (currentConversationId w)
                              (Ok chunks EndOfStream) (begin_cycle (render w) content w)))).
  { apply cycle_invariant.
    - intros evs c msg (Ha & Hb & Hc). split; [now apply summary_log |].
      split; [exact Hb | exact Hc].
    - intros evs ev c (Ha & Hb & _). split; [now apply summary_step |]. split.
      + intros Hall.
        assert (Hev : terminal ev = false) by (apply Hall, elem_of_app; right; left).
        rewrite <- Hb by (intros ev' Hin; apply Hall, elem_of_app; now left).
        destruct ev as [ty data]. unfold onEvent, reading. cbn [ev_type ev_data].
        destruct ty; try discriminate; destruct (nullish data); cbn; try easy.
        now destruct (truthy (get_field data "is_new")).
      + intros pre' d' E Hd' Hpre'. apply app_inj_tail in E as [<- <-].
        specialize (Hb Hpre'). destruct Ha as (Hacc & Hnid & Hquota).
        destruct ev as [ty data]. cbn in Hd'. subst ty.
        unfold onEvent. cbn [ev_type]. rewrite Hacc.
        destruct (decide (streamed_content evs = EmptyString)) as [E|E].
        * rewrite E. change (truthy (VStr EmptyString)) with false.
          cbn. split; [now rewrite Hb | easy].
        * rewrite (truthy_string _ E). cbn [on_world newConversationId].
          destruct (truthy (newConversationId c)) eqn:Ht.
          -- match goal with |- context [store_op ?op ?c'] =>
               destruct (sticky_get_removeError (newConversationId c) (world c'))
                 as (w1 & Hrm & _); [exact Hquota |];
               destruct (store_frame (newConversationId c) EmptyString (world c'))
                 as [_ (Hms & _)];
               unfold store_op; rewrite Hrm in *; cbn in Hms end.
             cbn. split; [| easy]. cbn in Hb. rewrite Hms. cbn.
             now rewrite Hb, <- app_assoc.
          -- cbn. split; [| easy]. now rewrite Hb, <- app_assoc.
    - split; [now repeat split |]. split; [reflexivity |].
      intros pre' d' E. now destruct pre'. }
  subst w'. rewrite (sendMessage_stream _ _ _ _ Hidle).
  destruct HP as (_ & _ & HP). now apply (HP pre d).
Qed.

End SessionFacts.

(* ===================================================================== *)
(** * Facts about cycles, lines, the ledger and the providers             *)
(* ===================================================================== *)

Module CycleFacts.
Import JsString JsStringFacts DecoderFacts SessionFacts StickyStore.

(** No event handler issues a request, fires a toast or reads the clock. *)
Lemma onEvent_frame (ev : ProtocolEvent) (c : Cycle) :
  requests (world (state_of (onEvent ev c))) = requests (world c)
  ∧ toasts (world (state_of (onEvent ev c))) = toasts (world c).
Proof.
  destruct ev as [ty data]. unfold onEvent, reading. cbn [ev_type ev_data].
  destruct ty.
  - destruct (nullish data); [easy |].
    now destruct (truthy (get_field data "is_new")).
  - now destruct (nullish data).
  - now destruct (nullish data).
  - destruct (truthy (VStr (accumulatedContent c))); [| easy].
    cbn [on_world newConversationId].
    destruct (truthy (newConversationId c)); [| easy].
    unfold store_op, removeError, getStoredErrors, setItem. cbn.
    destruct (chat_errors (localStorage (world c))); cbn;
      destruct (quota_exceeded (localStorage (world c))); easy.
  - destruct (nullish data); [easy |].
    destruct (js_or (get_field data "message") (VStr "An error occurred"))
      as [[| |m]|]; try easy.
    destruct (truthy (newConversationId c)); [| easy].
    unfold store_op, storeError, getStoredErrors, setItem. cbn.
    destruct (chat_errors (localStorage (world c))); cbn;
      destruct (quota_exceeded (localStorage (world c))); easy.
Qed.

(** How [sendMessage] ends when reading the body rejects. *)
Lemma sendMessage_read_error (JSON_parse : string → option json)
    (content : string) (chunks : list string) (m : string) (w : World) :
  isLoading w = false →
  sendMessage JSON_parse (render w) content (Ok chunks (ReadError m)) w
  = world (on_transport_error m
             (state_of (session_chatApi JSON_parse content (currentConversationId w)
                          (Ok chunks (ReadError m)) (begin_cycle (render w) content w)))).
Proof. intros Hidle. now apply sendMessage_read_error_from. Qed.


(** [x || fallback] as a string, when [x] is a string. *)
Lemma js_or_string (m fallback : string) :
  js_or (VStr m) (VStr fallback)
  = VStr (if decide (m = EmptyString) then fallback else m).
Proof. unfold js_or. cbn. now destruct (decide (m = EmptyString)). Qed.

Lemma cycle_inv_log (w0 : World) (content : string) (evs : list ProtocolEvent)
    (c : Cycle) (msg : string) :
  cycle_inv w0 content evs c →
  cycle_inv w0 content evs (on_world (console_error msg) c).
Proof. intros [Hs Hn]. split; [now apply summary_log | exact Hn]. Qed.

Lemma cycle_inv_step (w0 : World) (content : string) (evs : list ProtocolEvent)
    (ev : ProtocolEvent) (c : Cycle) :
  cycle_inv w0 content evs c →
  cycle_inv w0 content (evs ++ [ev]) (state_of (onEvent ev c)).
Proof.
  intros [Hs Hn]. split; [now apply summary_step |].
  intros Hall.
  assert (Hev : terminal ev = false) by (apply Hall, elem_of_app; right; left).
  destruct Hn as (Hl & Hm & Hb & Hst & Hid).
  { intros ev' Hin. apply Hall, elem_of_app. now left. }
  destruct ev as [ty data]. unfold streaming_state, onEvent, reading.
  cbn [ev_type ev_data].
  destruct ty; try discriminate; destruct (nullish data); cbn; try easy.
  now destruct (truthy (get_field data "is_new")).
Qed.

Lemma cycle_inv_init (w0 : World) (content : string) :
  isLoading w0 = false →
  cycle_inv w0 content []
    (on_world (fetch_chat (mkRequest content (js_or (currentConversationId w0) VNull)))
       (begin_cycle (render w0) content w0)).
Proof. intros _. split; [now repeat split |]. intros _. now repeat split. Qed.

(** The state a stream leaves satisfies [cycle_inv] for its events. *)
Lemma cycle_inv_final (JSON_parse : string → option json) (content : string)
    (chunks : list string) (ending : StreamEnd) (w : World) :
  isLoading w = false →
  cycle_inv w content (decoded_events JSON_parse chunks)
    (state_of (session_chatApi JSON_parse content (currentConversationId w)
                 (Ok chunks ending) (begin_cycle (render w) content w))).
Proof.
  intros Hidle. apply (cycle_invariant JSON_parse (cycle_inv w content)).
  - intros evs c msg. apply cycle_inv_log.
  - intros evs ev c. apply cycle_inv_step.
  - now apply cycle_inv_init.
Qed.

(** A rule for the last event of a stream: what its handler establishes from
    the invariant of the events before it, and diagnostics keep, holds of
    the state the stream leaves. *)
Lemma cycle_last_event (JSON_parse : string → option json) (content : string)
    (chunks : list string) (ending : StreamEnd) (w : World)
    (pre : list ProtocolEvent) (d : ProtocolEvent) (Q : Cycle → Prop) :
  isLoading w = false →
  decoded_events JSON_parse chunks = pre ++ [d] →
  (∀ c msg, Q c → Q (on_world (console_error msg) c)) →
  (∀ c, cycle_inv w content pre c → Q (state_of (onEvent d c))) →
  Q (state_of (session_chatApi JSON_parse content (currentConversationId w)
                 (Ok chunks ending) (begin_cycle (render w) content w))).
Proof.
  intros Hidle Hevs Hlog Hlast.
  pose (P := λ (evs : list ProtocolEvent) (c : Cycle),
          cycle_inv w content evs c ∧ (evs = pre ++ [d] → Q c)).
  assert (HP : P (decoded_events JSON_parse chunks)
                 (state_of (session_chatApi JSON_parse content (currentConversationId w)
                              (Ok chunks ending) (begin_cycle (render w) content w)))).
  { apply cycle_invariant.
    - intros evs c msg [Hi Hq]. split; [now apply cycle_inv_log |].
      intros E. now apply Hlog, Hq.
    - intros evs ev c [Hi _]. split; [now apply cycle_inv_step |].
      intros E. apply app_inj_tail in E as [-> ->]. now apply Hlast.
    - split; [now apply cycle_inv_init |]. intros E. now destruct pre. }
  destruct HP as [_ HP]. now apply HP.
Qed.

(** The handlers of the two terminal events, when the ledger can be
    written. *)
Lemma onEvent_done_writable (data : json) (c : Cycle) :
  quota_exceeded (localStorage (world c)) = false →
  ∃ c', onEvent (mkEvent EvDone data) c = Returned c'
        ∧ messages (world c')
          = messages (world c)
            ++ (if decide (accumulatedContent c = EmptyString) then []
                else [mkMessage RoleModel (accumulatedContent c)])
        ∧ streamingContent (world c') = EmptyString
        ∧ isLoading (world c') = false
        ∧ toasts (world c') = toasts (world c)
        ∧ currentConversationId (world c') = currentConversationId (world c)
        ∧ newConversationId c' = newConversationId c.
Proof.
  intros Hq. unfold onEvent. cbn [ev_type].
  destruct (decide (accumulatedContent c = EmptyString)) as [E|E].
  - rewrite E. change (truthy (VStr EmptyString)) with false.
    eexists. split; [reflexivity |]. cbn. now rewrite app_nil_r.
  - rewrite (truthy_string _ E). cbn [on_world newConversationId].
    destruct (truthy (newConversationId c)).
    + unfold store_op, removeError, getStoredErrors, setItem. cbn.
      destruct (chat_errors (localStorage (world c))); cbn; rewrite Hq;
        eexists; (split; [reflexivity |]); now cbn.
    + eexists. split; [reflexivity |]. now cbn.
Qed.

(** [x || fallback] is never the empty text. *)
Lemma or_fallback_shown (v : JsValue) (fallback shown : string) :
  fallback ≠ EmptyString →
  js_or v (VStr fallback) = VStr shown → shown ≠ EmptyString.
Proof.
  intros Hf. unfold js_or. destruct (truthy v) eqn:Ht.
  - intros ->. cbn in Ht. now destruct (decide (shown = EmptyString)).
  - intros E. injection E as <-. exact Hf.
Qed.

(** The [error] handler on a message that is a string, or absent: [shown] is
    the message after the fallback. *)
Lemma onEvent_error_shown (data : json) (shown : string) (c : Cycle) :
  nullish data = false →
  js_or (get_field data "message") (VStr "An error occurred") = VStr shown →
  quota_exceeded (localStorage (world c)) = false →
  ∃ c', onEvent (mkEvent EvError data) c = Returned c'
        ∧ messages (world c')
          = messages (world c) ++ [mkMessage RoleError (error_display shown)]
        ∧ streamingContent (world c') = EmptyString
        ∧ isLoading (world c') = false
        ∧ (truthy (newConversationId c) = true →
           ToString (newConversationId c) ≠ proto_key →
           sticky_get (newConversationId c) (world c') = Some (error_display shown))
        ∧ (truthy (newConversationId c) = false →
           localStorage (world c') = localStorage (world c)).
Proof.
  intros Hnn Hm Hq.
  assert (Hne : shown ≠ EmptyString).
  { apply (or_fallback_shown (get_field data "message") "An error occurred");
      [discriminate | exact Hm]. }
  assert (Hdisp : error_display shown ≠ EmptyString).
  { unfold error_display.
    destruct (is_limit_error shown); [apply banner_not_empty | exact Hne]. }
  unfold onEvent, reading. cbn [ev_type ev_data]. rewrite Hnn, Hm.
  fold (error_display shown).
  destruct (truthy (newConversationId c)) eqn:Ht.
  - destruct (store_frame (newConversationId c) (error_display shown) (world c))
      as [(Hms & _) _].
    destruct (storeError (newConversationId c) (error_display shown) (world c))
      as [w1|m1 w1] eqn:Hst.
    + unfold store_op. rewrite Hst. cbn in Hms. eexists. split; [reflexivity |].
      cbn. split; [now rewrite Hms |]. split; [reflexivity |]. split; [reflexivity |].
      split; [| discriminate].
      intros _ Hk.
      destruct (sticky_get_storeError (newConversationId c) (error_display shown)
                  (world c) Hq Hdisp Hk) as (w1' & Hst' & Hget).
      rewrite Hst in Hst'. injection Hst' as <-.
      erewrite sticky_get_storage; [exact Hget | reflexivity].
    + exfalso.
      pose proof (storeError_quota (newConversationId c) (error_display shown) (world c))
        as Hquota.
      unfold storeError in Hst. destruct (getStoredErrors (world c)) as [errors w0] eqn:E.
      assert (Hq0 : quota_exceeded (localStorage w0) = false)
        by now rewrite <- Hq, <- (getStoredErrors_storage (world c)), E.
      rewrite (setItem_ok _ _ Hq0) in Hst. discriminate.
  - eexists. split; [reflexivity |]. cbn. repeat split; try reflexivity. discriminate.
Qed.

Lemma onEvent_error_writable (data : json) (m : string) (c : Cycle) :
  get_field data "message" = VStr m →
  m ≠ EmptyString →
  quota_exceeded (localStorage (world c)) = false →
  ∃ c', onEvent (mkEvent EvError data) c = Returned c'
        ∧ messages (world c')
          = messages (world c) ++ [mkMessage RoleError (error_display m)]
        ∧ streamingContent (world c') = EmptyString
        ∧ isLoading (world c') = false
        ∧ (truthy (newConversationId c) = true →
           ToString (newConversationId c) ≠ proto_key →
           sticky_get (newConversationId c) (world c') = Some (error_display m))
        ∧ (truthy (newConversationId c) = false →
           localStorage (world c') = localStorage (world c)).
Proof.
  intros Hm Hne Hq. apply onEvent_error_shown; [| | exact Hq].
  - destruct data as [[]|]; try reflexivity. discriminate.
  - rewrite Hm, js_or_string. now rewrite decide_False.
Qed.

Lemma removelast_snoc2 {A} (l : list A) (x y : A) :
  removelast (l ++ [x; y]) = l ++ [x].
Proof.
  change [x; y] with ([x] ++ [y]). rewrite app_assoc. apply removelast_last.
Qed.

Lemma new_conversation_urls_snoc (evs : list ProtocolEvent) (ev : ProtocolEvent) :
  new_conversation_urls (evs ++ [ev])
  = new_conversation_urls evs ++ new_conversation_urls [ev].
Proof. unfold new_conversation_urls. now rewrite flat_map_app. Qed.

End CycleFacts.

Module LineFacts.
Import JsString JsStringFacts DecoderFacts.

Lemma complete_lines_tail (a tail : string) :
  has_lf tail = false → complete_lines (a +:+ tail) = complete_lines a.
Proof.
  intros H. rewrite complete_lines_app.
  rewrite (complete_lines_no_lf (partial_line a +:+ tail)).
  - apply app_nil_r.
  - now rewrite has_lf_app, partial_line_no_lf, H.
Qed.

Lemma concat_snoc (chunks : list string) (tail : string) :
  concat (chunks ++ [tail]) = concat chunks +:+ tail.
Proof. now rewrite concat_app, concat_singleton. Qed.

End LineFacts.

Module StoreFacts.
Import JsString JsStringFacts DecoderFacts SessionFacts CycleFacts StickyStore.

Lemma stored_ledger (w : World) :
  ∃ errors, getStoredErrors w = (errors, (getStoredErrors w).2)
            ∧ localStorage (getStoredErrors w).2 = localStorage w
            ∧ now (getStoredErrors w).2 = now w.
Proof.
  unfold getStoredErrors. destruct (chat_errors (localStorage w)); eexists; easy.
Qed.

Lemma sticky_get_ledger (cid : JsValue) (w : World) :
  sticky_get cid w
  = match ledger_of w !! ToString cid with
    | Some e => if decide (error_content e = EmptyString) then None
                else Some (error_content e)
    | None => None
    end.
Proof.
  unfold sticky_get, getErrorForConversation, ledger_of.
  now destruct (getStoredErrors w).
Qed.

Lemma storeError_writable (cid : JsValue) (content : string) (w : World) :
  quota_exceeded (localStorage w) = false →
  ∃ w', storeError cid content w = Returned w'
        ∧ ledger_of w'
          = assign (ToString cid) (mkStickyError content (now w)) (ledger_of w)
        ∧ localStorage w'
          = mkLocalStorage
              (Ledger (assign (ToString cid) (mkStickyError content (now w))
                         (ledger_of w)))
              false
        ∧ now w' = now w.
Proof.
  intros Hq. unfold storeError, ledger_of, getStoredErrors, setItem.
  destruct (chat_errors (localStorage w)) eqn:E; cbn; rewrite Hq;
    eexists; (split; [reflexivity |]); cbn; easy.
Qed.

Lemma removeError_writable (cid : JsValue) (w : World) :
  quota_exceeded (localStorage w) = false →
  ∃ w', removeError cid w = Returned w'
        ∧ ledger_of w' = delete (ToString cid) (ledger_of w)
        ∧ localStorage w'
          = mkLocalStorage (Ledger (delete (ToString cid) (ledger_of w))) false.
Proof.
  intros Hq. unfold removeError, ledger_of, getStoredErrors, setItem.
  destruct (chat_errors (localStorage w)) eqn:E; cbn; rewrite Hq;
    eexists; (split; [reflexivity |]); cbn; easy.
Qed.

(** What a successful load shows. *)
Lemma loadConversation_ok (id : JsValue) (data : ConversationData) (w : World) :
  truthy id = true →
  let w' := loadConversation id (RestOk (Resolved data)) w in
  messages w'
  = default [] (data_messages data)
    ++ match sticky_get id w with
       | Some e => [mkMessage RoleError e]
       | None => []
       end
  ∧ currentConversationId w' = id.
Proof.
  intros Ht. unfold loadConversation, sticky_get. rewrite Ht. cbn [negb handleResponse].
  destruct (getErrorForConversation id w) as [[e|] w1]; cbn;
    now rewrite ?app_nil_r.
Qed.

Lemma sticky_get_newChat (cid : JsValue) (w : World) :
  sticky_get cid (newChat w) = sticky_get cid w.
Proof. now apply sticky_get_storage. Qed.

(** [deleteConversation] when the server deletes and the ledger can be
    written, step by step. *)
Lemma deleteConversation_ok (cid : JsValue) (w : World) :
  quota_exceeded (localStorage w) = false →
  ∃ w1,
    removeError cid
      (setConversations
         (List.filter (λ c, negb (bool_decide (conv_id c = cid)))) w) = Returned w1
    ∧ ledger_of w1 = delete (ToString cid) (ledger_of w)
    ∧ localStorage w1
      = mkLocalStorage (Ledger (delete (ToString cid) (ledger_of w))) false
    ∧ messages w1 = messages w
    ∧ currentConversationId w1 = currentConversationId w
    ∧ navigations w1 = navigations w
    ∧ toasts w1 = toasts w
    ∧ conversations w1
      = List.filter (λ c, negb (bool_decide (conv_id c = cid))) (conversations w)
    ∧ deleteConversation cid DeleteSucceeds w
      = (true,
         toast_fire (mkToast "Conversation deleted" toast_success None)
           (if bool_decide (currentConversationId w1 = cid)
            then setCurrentConversationId VNull
                   (setMessages (λ _, []) (navigate "/" w1))
            else w1)).
Proof.
  intros Hq. unfold deleteConversation, removeError, ledger_of, getStoredErrors, setItem.
  cbn. destruct (chat_errors (localStorage w)); cbn; rewrite Hq;
    eexists; (split; [reflexivity |]); cbn; easy.
Qed.

(** [x || fallback] is never the empty text. *)
Lemma or_fallback_not_empty (v : JsValue) (fallback : string) :
  fallback ≠ EmptyString → ToString (js_or v (VStr fallback)) ≠ EmptyString.
Proof.
  intros Hf. unfold js_or. destruct v as [[|[]|s]|]; try exact Hf; try discriminate.
  destruct (decide (s = EmptyString)) as [->|Hs]; [exact Hf |].
  now rewrite (truthy_string s Hs).
Qed.

End StoreFacts.

Module ToastFacts.
Import ToastProvider.

Lemma elem_of_without (id : Z) (prev : list ToastItem) (t : ToastItem) :
  t ∈ without id prev ↔ t ∈ prev ∧ item_id t ≠ id.
Proof.
  unfold without. rewrite !list_elem_of_In, filter_In, negb_true_iff.
  split; intros [H1 H2]; (split; [exact H1 |]).
  - now apply bool_decide_eq_false_1 in H2.
  - now apply bool_decide_eq_false_2.
Qed.

Lemma elem_of_fired (fired : list Timer) (prev : list ToastItem) (t : ToastItem) :
  t ∈ fold_left (λ prev tm, without (target tm) prev) fired prev
  ↔ t ∈ prev ∧ ∀ tm, tm ∈ fired → target tm ≠ item_id t.
Proof.
  revert prev. induction fired as [|tm fired IH]; intros prev; cbn [fold_left].
  - split; [intros H; split; [exact H | intros tm Htm; now apply elem_of_nil in Htm]
           | now intros [H _]].
  - rewrite IH, elem_of_without. split.
    + intros [[H1 H2] H3]. split; [exact H1 |]. intros tm' Htm'.
      apply elem_of_cons in Htm' as [->|Htm']; [congruence | now apply H3].
    + intros [H1 H2]. split; [split; [exact H1 |] |].
      * intros E. apply (H2 tm); [left | now symmetry].
      * intros tm' Htm'. apply H2. now right.
Qed.

(** The toasts left when time has passed: those no timer due by then
    targets. *)
Lemma elem_of_elapse (time : Z) (st : State) (t : ToastItem) :
  t ∈ shown (elapse time st)
  ↔ t ∈ shown st ∧ ∀ tm, tm ∈ timers st → due tm ≤ time → target tm ≠ item_id t.
Proof.
  unfold elapse. cbn [shown]. rewrite elem_of_fired. split; intros [H1 H2];
    (split; [exact H1 |]).
  - intros tm Htm Hdue. apply H2.
    apply list_elem_of_In, filter_In. split; [now apply list_elem_of_In | lia].
  - intros tm Htm. apply list_elem_of_In, filter_In in Htm as [Htm Hdue].
    apply H2; [now apply list_elem_of_In | lia].
Qed.

Lemma addToast_spec (message : string) (kind : option ToastKind)
    (duration : option Z) (now : Z) (st : State) :
  (addToast message kind duration now st).1 = now
  ∧ shown (addToast message kind duration now st).2
    = shown st ++ [mkToastItem now message (default kind_info kind)]
  ∧ timers (addToast message kind duration now st).2
    = timers st ++ (if 0 <? default 5000 duration
                    then [mkTimer (now + timeout_delay (default 5000 duration)) now]
                    else []).
Proof.
  unfold addToast. destruct (0 <? default 5000 duration); cbn; now rewrite ?app_nil_r.
Qed.

(** The delay of a timer: never negative, never longer than asked, and the
    duration itself when that fits 31 bits. *)
Lemma timeout_delay_range (duration : Z) :
  0 ≤ timeout_delay duration
  ∧ (0 ≤ duration → timeout_delay duration ≤ duration)
  ∧ (0 ≤ duration < 2 ^ 31 → timeout_delay duration = duration).
Proof.
  unfold timeout_delay, ToInt32.
  pose proof (Z.mod_pos_bound (duration + 2 ^ 31) (2 ^ 32) ltac:(lia)) as Hb.
  split; [lia |]. split.
  - intros Hd.
    pose proof (Z.mod_le (duration + 2 ^ 31) (2 ^ 32) ltac:(lia) ltac:(lia)). lia.
  - intros Hd. rewrite Z.mod_small by lia. lia.
Qed.

End ToastFacts.

Module AuthFacts.
Import SessionFacts.

Lemma ToString_empty (v : JsValue) : ToString v = EmptyString → v = VStr EmptyString.
Proof. destruct v as [[|[]|s]|]; cbn; try discriminate. now intros ->. Qed.

End AuthFacts.

(* ===================================================================== *)
(** * The properties of the specification                                 *)
(* ===================================================================== *)

Import JsString JsStringFacts DecoderFacts SessionFacts CycleFacts LineFacts StoreFacts.

(** ** C1: the committed model message is the concatenation of the deltas *)

(** C1.  A cycle whose stream yields [delta] events and then [done] commits
    the concatenation of the delta contents as one [model] message, only when
    it is not empty, and the streaming buffer is then empty.  The code breaks
    the last part when the ledger cannot be written: on the stream
    [delta "Hi"; done] for the loaded conversation [c1], with the storage
    quota exhausted, the message ["Hi"] is committed, but [removeError] throws
    before the buffer and the loading flag are reset, and the decoder's
    [catch] swallows the exception: the session keeps ["Hi"] in its streaming
    buffer and stays loading.  (With a writable ledger the claim holds:
    [SessionFacts.done_commits_streamed_content].) *)
Theorem done_leaves_buffer_when_ledger_write_fails :
  let chunks := [sse_record json_text_delta_Hi; sse_record json_text_done] in
  let w' := sendMessage sample_JSON_parse (render world_c1_quota) "hello"
              (Ok chunks EndOfStream)
              world_c1_quota in
  decoded_events sample_JSON_parse chunks = [delta_event "Hi"; ev_done]
  ∧ messages w' = [mkMessage RoleUser "hello"; mkMessage RoleModel "Hi"]
  ∧ streamingContent w' = "Hi"
  ∧ isLoading w' = true
  ∧ console w' = ["Failed to parse SSE data:"].
Proof. vm_compute. repeat split; reflexivity. Qed.

(** ** C2: a successful cycle clears the sticky error *)

(** C2, as amended.  For every cycle whose stream ends in a [done] event:
    when the text streamed before it is not empty and the cycle is bound to
    a conversation with a non-empty id (the ledger being writable), the
    sticky error of that conversation is cleared, so that a subsequent [get]
    returns nothing; when no text was streamed, or no conversation is bound,
    the [done] event does not touch the store: its handler returns normally
    and leaves [localStorage] as it is, in every state, and so the whole
    cycle leaves it as it was when no text was streamed and no terminal
    event came before. *)
Theorem done_with_content_clears_sticky_error
    (JSON_parse : string → option json) (content : string)
    (chunks : list string) (w : World)
    (pre : list ProtocolEvent) (d : ProtocolEvent) :
  isLoading w = false →
  decoded_events JSON_parse chunks = pre ++ [d] →
  ev_type d = EvDone →
  let cid := cycle_conversation (currentConversationId w) pre in
  let w' := sendMessage JSON_parse (render w) content (Ok chunks EndOfStream) w in
  (streamed_content pre ≠ EmptyString →
   truthy cid = true →
   quota_exceeded (localStorage w) = false →
   sticky_get cid w' = None)
  ∧ (streamed_content pre = EmptyString →
     (∀ ev, ev ∈ pre → terminal ev = false) →
     localStorage w' = localStorage w)
  ∧ (∀ c, accumulatedContent c = EmptyString →
          ∃ c', onEvent d c = Returned c'
                ∧ localStorage (world c') = localStorage (world c)
                ∧ messages (world c') = messages (world c))
  ∧ (∀ c, truthy (newConversationId c) = false →
          ∃ c', onEvent d c = Returned c'
                ∧ localStorage (world c') = localStorage (world c)).
Proof.
  intros Hidle Hevs Hd cid w'. split; [| split; [| split]].
  - intros Hc Hid Hq. subst cid w'.
    pose (P := λ (evs : list ProtocolEvent) (c : Cycle),
            summary (currentConversationId w) false evs c
            ∧ (∀ pre d, evs = pre ++ [d] → ev_type d = EvDone →
                 streamed_content pre ≠ EmptyString →
                 truthy (cycle_conversation (currentConversationId w) pre) = true →
                 sticky_get (cycle_conversation (currentConversationId w) pre) (world c)
                 = None)).
    assert (HP : P (decoded_events JSON_parse chunks)
                   (state_of (session_chatApi JSON_parse content (currentConversationId w)
                                (Ok chunks EndOfStream)
                                (begin_cycle (render w) content w)))).
    { apply cycle_invariant.
      - intros evs c msg [Ha Hb]. split; [now apply summary_log |].
        intros pre' d' E Hd' Hc' Hid'. rewrite <- (Hb pre' d' E Hd' Hc' Hid').
        now apply sticky_get_storage.
      - intros evs ev c [Ha _]. split; [now apply summary_step |].
        intros pre' d' E Hd' Hc' Hid'. apply app_inj_tail in E as [<- <-].
        destruct Ha as (Hacc & Hnid & Hquota).
        destruct ev as [ty data]. cbn in Hd'. subst ty.
        unfold onEvent. cbn [ev_type].
        rewrite Hacc, (truthy_string _ Hc'). cbn [on_world newConversationId].
        rewrite Hnid, Hid'.
        match goal with |- context [store_op ?op ?c'] =>
          destruct (sticky_get_removeError
                      (cycle_conversation (currentConversationId w) evs)
                      (world c')) as (w1 & Hrm & Hget); [exact Hquota |];
          unfold store_op; rewrite Hrm end.
        cbn. erewrite sticky_get_storage; [exact Hget | reflexivity].
      - split; [now repeat split |]. intros pre' d' E. now destruct pre'. }
    rewrite (sendMessage_stream _ _ _ _ Hidle).
    destruct HP as [_ HP]. now apply (HP pre d).
  - intros Hc Hpre. subst w'. rewrite (sendMessage_stream _ _ _ _ Hidle).
    apply (cycle_last_event JSON_parse content chunks EndOfStream w pre d
             (λ c, localStorage (world c) = localStorage w) Hidle Hevs).
    + intros c msg H. exact H.
    + intros c [(Hacc & _) Hs]. destruct (Hs Hpre) as (_ & _ & _ & Hst & _).
      destruct d as [ty data]. cbn in Hd. subst ty.
      unfold onEvent. cbn [ev_type]. rewrite Hacc, Hc. exact Hst.
  - intros c Hacc. destruct d as [ty data]. cbn in Hd. subst ty.
    unfold onEvent. cbn [ev_type]. rewrite Hacc. eexists. now split.
  - intros c Hid. destruct d as [ty data]. cbn in Hd. subst ty.
    unfold onEvent. cbn [ev_type].
    destruct (truthy (VStr (accumulatedContent c))).
    + cbn [on_world newConversationId]. rewrite Hid. eexists. now split.
    + eexists. now split.
Qed.

Lemma done_with_content_clears_sticky_error_witness :
  let cid := cycle_conversation (currentConversationId world_c1_failed)
               [delta_event "Hi"] in
  let w' := sendMessage sample_JSON_parse (render world_c1_failed) "hello"
              (Ok stream_Hi_done EndOfStream) world_c1_failed in
  (streamed_content [delta_event "Hi"] ≠ EmptyString →
   truthy cid = true →
   quota_exceeded (localStorage world_c1_failed) = false →
   sticky_get cid w' = None)
  ∧ (streamed_content [delta_event "Hi"] = EmptyString →
     (∀ ev, ev ∈ [delta_event "Hi"] → terminal ev = false) →
     localStorage w' = localStorage world_c1_failed)
  ∧ (∀ c, accumulatedContent c = EmptyString →
          ∃ c', onEvent ev_done c = Returned c'
                ∧ localStorage (world c') = localStorage (world c)
                ∧ messages (world c') = messages (world c))
  ∧ (∀ c, truthy (newConversationId c) = false →
          ∃ c', onEvent ev_done c = Returned c'
                ∧ localStorage (world c') = localStorage (world c)).
Proof.
  apply (done_with_content_clears_sticky_error sample_JSON_parse "hello"
           stream_Hi_done world_c1_failed [delta_event "Hi"] ev_done).
  - reflexivity.
  - vm_compute. reflexivity.
  - reflexivity.
Defined.

(** C2, as stated, fails: a cycle on [c1] whose stream is a lone [done] event
    (no delta) reaches [done], and the sticky error of [c1] is still there. *)
Lemma done_without_content_keeps_sticky_error :
  ¬ (∀ (JSON_parse : string → option json) (content : string)
       (chunks : list string) (w : World)
       (pre : list ProtocolEvent) (d : ProtocolEvent),
       isLoading w = false →
       decoded_events JSON_parse chunks = pre ++ [d] →
       ev_type d = EvDone →
       sticky_get (cycle_conversation (currentConversationId w) pre)
         (sendMessage JSON_parse (render w) content (Ok chunks EndOfStream) w) = None).
Proof.
  intros H.
  specialize (H sample_JSON_parse "hello" [sse_record json_text_done]
                world_c1_failed [] ev_done eq_refl eq_refl eq_refl).
  vm_compute in H. discriminate.
Qed.

(** ** C3: a transport failure rolls the optimistic message back *)

(** C3.  For every cycle whose request fails at transport level ([fetch]
    rejects, or the response is not ok), the transcript is back to its value
    before the send, exactly one toast has been fired, the ledger is
    untouched, and the session is idle: not loading, empty streaming
    buffer. *)
Theorem transport_failure_rolls_back (JSON_parse : string → option json)
    (content : string) (response : Response) (w : World) :
  isLoading w = false →
  transport_failure response = true →
  let w' := sendMessage JSON_parse (render w) content response w in
  messages w' = messages w
  ∧ (∃ t, toasts w' = toasts w ++ [t] ∧ toast_type t = toast_error)
  ∧ localStorage w' = localStorage w
  ∧ isLoading w' = false
  ∧ streamingContent w' = EmptyString.
Proof.
  intros Hidle Hfail. unfold sendMessage, session_chatApi, chatApi_sendMessage.
  cbn [render render_isLoading render_currentConversationId]. rewrite Hidle.
  assert (Hroll : ∀ m, messages (world (on_transport_error m
             (on_world (fetch_chat (mkRequest content (js_or (currentConversationId w) VNull)))
                (begin_cycle (render w) content w)))) = messages w).
  { intros m. cbn. unfold slice_0_m1. apply removelast_last. }
  destruct response as [m | body | chunks ending]; [| | discriminate].
  - cbn [tryCatch]. rewrite Hroll. cbn. repeat split; eauto.
  - unfold reading.
    destruct (nullish _); cbn [tryCatch]; rewrite Hroll; cbn; repeat split; eauto.
Qed.

Lemma transport_failure_rolls_back_witness :
  let w' := sendMessage sample_JSON_parse (render world_c1_failed) "hello"
              (NotOk None) world_c1_failed in
  messages w' = messages world_c1_failed
  ∧ (∃ t, toasts w' = toasts world_c1_failed ++ [t] ∧ toast_type t = toast_error)
  ∧ localStorage w' = localStorage world_c1_failed
  ∧ isLoading w' = false
  ∧ streamingContent w' = EmptyString.
Proof.
  apply (transport_failure_rolls_back sample_JSON_parse "hello" (NotOk None)
           world_c1_failed); reflexivity.
Defined.

(** ** C4: a send while loading is dropped *)



(** ** C5: the type inference policy *)

(** C5, as amended.  For every record, whatever its payload: when the
    payload is an object, the decoder hands the callback exactly the event
    the inference policy of the specification names (conversation id, else
    content, else title, else message, else no field at all), or no event
    when no shape matches; a payload that is not an object goes through the
    same tests, so that a boolean or the empty string yields a [done] event
    as the empty object does, a non-empty string yields nothing, and [null],
    like text that is not JSON, is reported on the console and yields
    nothing.  In every case the decoder goes on with the rest of the stream,
    from the state the classification leaves (unchanged when no shape
    matches), and the loop never throws. *)
Theorem shape_dispatch (JSON_parse : string → option json) (text : string)
    (more : list string) :
  has_lf text = false →
  let record := ("data: " +:+ text) +:+ String LF EmptyString in
  let action := payload_action (JSON_parse text) in
  decoded_events JSON_parse (record :: more)
  = fired action ++ decoded_events JSON_parse more
  ∧ (∀ fields, JSON_parse text = Some (JObject fields) →
       decoded_events JSON_parse (record :: more)
       = match inferred_kind fields with
         | Some kind => [mkEvent kind (JObject fields)]
         | None => []
         end ++ decoded_events JSON_parse more)
  ∧ (∀ (S : Type) (log : string → S → S) (onEvent : ProtocolEvent → S → Result S)
       (ending : StreamEnd) (s : S),
       read_loop JSON_parse log onEvent (record :: more) ending EmptyString s
       = read_loop JSON_parse log onEvent more ending EmptyString
           (perform log onEvent action s))
  ∧ (∀ (S : Type) (log : string → S → S) (onEvent : ProtocolEvent → S → Result S)
       (s : S),
       throws (read_loop JSON_parse log onEvent (record :: more) EndOfStream
                 EmptyString s) = false).
Proof.
  intros Hlf record action.
  assert (Hline : has_lf ("data: " +:+ text) = false)
    by now rewrite has_lf_app, Hlf.
  assert (Hact : line_action JSON_parse ("data: " +:+ text) = action)
    by apply line_action_payload.
  assert (Hevs : decoded_events JSON_parse (record :: more)
                 = fired action ++ decoded_events JSON_parse more).
  { unfold decoded_events, record.
    rewrite !read_loop_lines, (lines_read_line _ more Hline).
    cbn [fst finish state_of]. rewrite !recorded_lines. cbn [flat_map app].
    now rewrite Hact. }
  split; [exact Hevs |]. split; [| split].
  - intros fields Hparse. rewrite Hevs. unfold action. rewrite Hparse. cbn.
    now destruct (inferred_kind fields).
  - intros S log onEvent ending s. unfold record.
    rewrite !read_loop_lines, (lines_read_line _ more Hline). cbn [fst].
    now rewrite process_lines_cons, Hact.
  - intros S log onEvent s. apply read_loop_returns.
Qed.

Lemma shape_dispatch_witness :
  let record := ("data: " +:+ json_text_delta_Hi) +:+ String LF EmptyString in
  let action := payload_action (sample_JSON_parse json_text_delta_Hi) in
  decoded_events sample_JSON_parse (record :: [sse_record json_text_done])
  = fired action ++ decoded_events sample_JSON_parse [sse_record json_text_done]
  ∧ (∀ fields, sample_JSON_parse json_text_delta_Hi = Some (JObject fields) →
       decoded_events sample_JSON_parse (record :: [sse_record json_text_done])
       = match inferred_kind fields with
         | Some kind => [mkEvent kind (JObject fields)]
         | None => []
         end ++ decoded_events sample_JSON_parse [sse_record json_text_done])
  ∧ (∀ (S : Type) (log : string → S → S) (onEvent : ProtocolEvent → S → Result S)
       (ending : StreamEnd) (s : S),
       read_loop sample_JSON_parse log onEvent
         (record :: [sse_record json_text_done]) ending EmptyString s
       = read_loop sample_JSON_parse log onEvent
           [sse_record json_text_done] ending EmptyString
           (perform log onEvent action s))
  ∧ (∀ (S : Type) (log : string → S → S) (onEvent : ProtocolEvent → S → Result S)
       (s : S),
       throws (read_loop sample_JSON_parse log onEvent
                 (record :: [sse_record json_text_done]) EndOfStream
                 EmptyString s) = false).
Proof.
  apply (shape_dispatch sample_JSON_parse json_text_delta_Hi
           [sse_record json_text_done]).
  reflexivity.
Defined.

(** C5, as stated, fails: the payload [true] has none of the four fields and
    is not an empty object, and yet it does produce an event, [done]. *)
Lemma boolean_payload_is_taken_for_done :
  ¬ (∀ (JSON_parse : string → option json) (text : string) (data : json)
       (more : list string),
       has_lf text = false →
       JSON_parse text = Some data →
       decoded_events JSON_parse
         ((("data: " +:+ text) +:+ String LF EmptyString) :: more)
       = match data with
         | JObject fields =>
             match inferred_kind fields with
             | Some kind => [mkEvent kind data]
             | None => []
             end
         | JPrim _ => []
         end ++ decoded_events JSON_parse more).
Proof.
  intros H.
  specialize (H sample_JSON_parse json_text_true (JPrim (JBool true)) []
                eq_refl eq_refl).
  vm_compute in H. discriminate.
Qed.

(** ** C6: chunk boundaries do not matter *)

(** C6.  For every stream of text and every way of cutting it into chunks,
    the decoder calls the callback as it does for the uncut stream, so the
    event sequence and the effect of the cycle are the same.  What it does
    is fixed by the text alone: it performs, in order, the action of every
    complete line of the concatenated chunks, and the events it delivers
    are those of these lines; and these lines, each with its line feed,
    followed by the partial line still held in the buffer, are the stream
    itself: nothing is dropped or read twice. *)
Theorem chunking_is_transparent (JSON_parse : string → option json)
    (chunks : list string) (ending : StreamEnd) :
  (∀ (S : Type) (log : string → S → S) (onEvent : ProtocolEvent → S → Result S) (s : S),
     read_loop JSON_parse log onEvent chunks ending EmptyString s
     = read_loop JSON_parse log onEvent [concat chunks] ending EmptyString s)
  ∧ decoded_events JSON_parse chunks = decoded_events JSON_parse [concat chunks]
  ∧ (∀ r content w,
       sendMessage JSON_parse r content (Ok chunks ending) w
       = sendMessage JSON_parse r content (Ok [concat chunks] ending) w)
  ∧ concat (map (λ l, l +:+ String LF EmptyString) (lines_read chunks EmptyString).1)
      +:+ (lines_read chunks EmptyString).2
    = concat chunks
  ∧ (∀ (S : Type) (log : string → S → S) (onEvent : ProtocolEvent → S → Result S) (s : S),
       read_loop JSON_parse log onEvent chunks ending EmptyString s
       = finish ending
           (fold_left (λ s line, perform log onEvent (line_action JSON_parse line) s)
              (complete_lines (concat chunks)) s))
  ∧ decoded_events JSON_parse chunks
    = flat_map (λ line, fired (line_action JSON_parse line))
        (complete_lines (concat chunks))
  ∧ concat (map (λ l, l +:+ String LF EmptyString) (complete_lines (concat chunks)))
      +:+ partial_line (concat chunks)
    = concat chunks
  ∧ lines_read chunks EmptyString
    = (complete_lines (concat chunks), partial_line (concat chunks)).
Proof.
  assert (Hloop : ∀ (S : Type) (log : string → S → S)
                    (onEvent : ProtocolEvent → S → Result S) (s : S),
             read_loop JSON_parse log onEvent chunks ending EmptyString s
             = read_loop JSON_parse log onEvent [concat chunks] ending EmptyString s).
  { intros S log onEvent s.
    now rewrite !read_loop_lines, !lines_read_start, concat_singleton. }
  split; [exact Hloop |].
  split; [| split; [| split; [| split; [| split; [| split]]]]].
  - now rewrite !decoded_events_lines, concat_singleton.
  - intros r content w. unfold sendMessage, session_chatApi, chatApi_sendMessage.
    destruct (render_isLoading r); [reflexivity |]. now rewrite Hloop.
  - rewrite lines_read_start. cbn [fst snd]. apply lines_account.
  - intros S log onEvent s. rewrite read_loop_lines, lines_read_start. cbn [fst].
    f_equal. unfold process_lines. generalize s.
    induction (complete_lines (concat chunks)) as [|l ls IH]; intros s0;
      [reflexivity |].
    cbn [fold_left]. now rewrite process_line_action, IH.
  - apply decoded_events_lines.
  - apply lines_account.
  - apply lines_read_start.
Qed.

(** ** C7: the sidebar list is updated in place or extended at the head *)

(** C7.  For every list and every pair [(id, title)]: if the id is in the
    list, the entries with that id get the title, in place, ids and order
    unchanged; otherwise one entry is put at the head.  The operation is
    idempotent: any number of calls gives the list one call gives, at most
    one entry longer than the original. *)
Theorem title_sync_is_idempotent_upsert (cid title : JsValue)
    (prev : list Conversation) :
  (cid ∈ map conv_id prev →
     sync_title cid title prev = map (retitle cid title) prev
     ∧ map conv_id (sync_title cid title prev) = map conv_id prev
     ∧ length (sync_title cid title prev) = length prev)
  ∧ (cid ∉ map conv_id prev →
     sync_title cid title prev = mkConversation cid title ∅ :: prev)
  ∧ sync_title cid title (sync_title cid title prev) = sync_title cid title prev
  ∧ (∀ n : nat,
       Nat.iter (S n) (sync_title cid title) prev = sync_title cid title prev
       ∧ (length (Nat.iter n (sync_title cid title) prev) ≤ S (length prev))%nat).
Proof.
  split; [| split; [| split]].
  - intros Hin. rewrite sync_title_present by exact Hin.
    rewrite map_retitle_ids. repeat split. apply length_map.
  - apply sync_title_absent.
  - apply sync_title_idem.
  - assert (Hiter : ∀ n : nat,
        Nat.iter (S n) (sync_title cid title) prev = sync_title cid title prev).
    { induction n as [|n IH]; [reflexivity |].
      change (sync_title cid title (Nat.iter (S n) (sync_title cid title) prev)
              = sync_title cid title prev).
      rewrite IH. apply sync_title_idem. }
    intros n. split; [apply Hiter |].
    destruct n as [|n]; [cbn; lia |]. rewrite Hiter.
    destruct (decide (cid ∈ map conv_id prev)) as [Hin|Hout].
    + rewrite sync_title_present by exact Hin. rewrite length_map. lia.
    + rewrite sync_title_absent by exact Hout. cbn. lia.
Qed.

(** ** C8: stream-level errors are classified and recorded *)




(** ** C9: the store never fails its caller *)

(** C9.  [put], [get] and [remove] are to return normally even when the
    persistence mechanism fails.  The code does so for reads
    ([getStoredErrors] catches), not for writes: with the storage quota
    exhausted, [storeError] and [removeError] throw into their caller, and
    an [error] event handled by the session then raises out of [onEvent]
    before the error message reaches the transcript and before the loading
    flag is reset; deleting a conversation the server has deleted reports
    the storage error to the user and returns [false]. *)
Theorem ledger_write_failure_propagates :
  StickyStore.storeError (VStr "c1") "boom" world_c1_quota
  = Thrown "QuotaExceededError" world_c1_quota
  ∧ StickyStore.removeError (VStr "c1") world_c1_quota
    = Thrown "QuotaExceededError" world_c1_quota
  ∧ (let c := begin_cycle (render world_c1_quota) "hello" world_c1_quota in
     throws (onEvent ev_error_boom c) = true
     ∧ messages (world (state_of (onEvent ev_error_boom c)))
       = [mkMessage RoleUser "hello"]
     ∧ isLoading (world (state_of (onEvent ev_error_boom c))) = true)
  ∧ (let r := deleteConversation (VStr "c1") DeleteSucceeds world_c1_quota in
     r.1 = false
     ∧ conversations r.2 = []
     ∧ toasts r.2 = [mkToast "QuotaExceededError" toast_error None]).
Proof. vm_compute. repeat split; reflexivity. Qed.

(** ** C10: a stream that ends without a terminal event *)

(** C10, as amended.  For every cycle in whose stream no [done] or [error]
    event is decoded: when the stream is exhausted (the reader reports the
    end of the body), [sendMessage] returns with the session still loading,
    so that every later send is dropped once React has rendered; the
    optimistic user message is the last message of the transcript, no
    [model] message having been committed; the streamed text is left in the
    streaming buffer.  When the stream is truncated instead (reading the
    body rejects), the [catch] block runs: the session is idle again, the
    streaming buffer is empty, the optimistic user message is removed and
    one error toast is shown. *)
Theorem stream_without_terminal_event_stays_loading
    (JSON_parse : string → option json) (content : string)
    (chunks : list string) (w : World) :
  isLoading w = false →
  (∀ ev, ev ∈ decoded_events JSON_parse chunks → terminal ev = false) →
  (let w' := sendMessage JSON_parse (render w) content (Ok chunks EndOfStream) w in
   isLoading w' = true
   ∧ messages w' = messages w ++ [mkMessage RoleUser content]
   ∧ streamingContent w' = streamed_content (decoded_events JSON_parse chunks)
   ∧ (∀ content' response',
        sendMessage JSON_parse (render w') content' response' w' = w'))
  ∧ (∀ m,
       let w' := sendMessage JSON_parse (render w) content (Ok chunks (ReadError m)) w in
       isLoading w' = false
       ∧ messages w' = messages w
       ∧ streamingContent w' = EmptyString
       ∧ toasts w'
         = toasts w
           ++ [mkToast (ToString (js_or (VStr m) (VStr "Failed to send message")))
                 toast_error (Some 7000)]).
Proof.
  intros Hidle Hnt. split.
  - intros w'.
    pose proof (cycle_inv_final JSON_parse content chunks EndOfStream w Hidle)
      as [(Hacc & _) Hs].
    destruct (Hs Hnt) as (Hl & Hm & Hb & _).
    subst w'. rewrite (sendMessage_stream _ _ _ _ Hidle).
    split; [exact Hl |]. split; [exact Hm |]. split; [now rewrite Hb, Hacc |].
    intros content' response'. unfold sendMessage.
    cbn [render render_isLoading]. now rewrite Hl.
  - intros m w'.
    pose proof (cycle_inv_final JSON_parse content chunks (ReadError m) w Hidle)
      as [_ Hs].
    destruct (Hs Hnt) as (_ & Hm & _).
    assert (Ht : toasts (world (state_of
                 (session_chatApi JSON_parse content (currentConversationId w)
                    (Ok chunks (ReadError m)) (begin_cycle (render w) content w))))
                 = toasts w).
    { apply (cycle_invariant JSON_parse (λ _ c, toasts (world c) = toasts w)).
      - intros evs c msg H. exact H.
      - intros evs ev c H. now rewrite (proj2 (onEvent_frame ev c)).
      - reflexivity. }
    subst w'. rewrite (sendMessage_read_error _ _ _ _ _ Hidle).
    set (cf := state_of _) in *. clearbody cf.
    cbn. rewrite Hm, Ht. unfold slice_0_m1. rewrite removelast_last. easy.
Qed.

Lemma stream_without_terminal_event_stays_loading_witness :
  (let w' := sendMessage sample_JSON_parse (render world_new_chat) "hello"
               (Ok [sse_record json_text_delta_Hi] EndOfStream) world_new_chat in
   isLoading w' = true
   ∧ messages w' = messages world_new_chat ++ [mkMessage RoleUser "hello"]
   ∧ streamingContent w'
     = streamed_content (decoded_events sample_JSON_parse [sse_record json_text_delta_Hi])
   ∧ (∀ content' response',
        sendMessage sample_JSON_parse (render w') content' response' w' = w'))
  ∧ (∀ m,
       let w' := sendMessage sample_JSON_parse (render world_new_chat) "hello"
                   (Ok [sse_record json_text_delta_Hi] (ReadError m)) world_new_chat in
       isLoading w' = false
       ∧ messages w' = messages world_new_chat
       ∧ streamingContent w' = EmptyString
       ∧ toasts w'
         = toasts world_new_chat
           ++ [mkToast (ToString (js_or (VStr m) (VStr "Failed to send message")))
                 toast_error (Some 7000)]).
Proof.
  apply (stream_without_terminal_event_stays_loading sample_JSON_parse "hello"
           [sse_record json_text_delta_Hi] world_new_chat).
  - reflexivity.
  - assert (E : decoded_events sample_JSON_parse [sse_record json_text_delta_Hi]
                = [delta_event "Hi"]) by (vm_compute; reflexivity).
    rewrite E. intros ev Hin. apply list_elem_of_singleton in Hin. subst ev.
    reflexivity.
Defined.

(** C10, as stated, fails for a truncated stream: a body that brings one
    delta and then fails to be read leaves the session idle, with the user
    message removed from the transcript. *)
Lemma truncated_stream_resets_the_session :
  ¬ (∀ (JSON_parse : string → option json) (content : string)
       (chunks : list string) (ending : StreamEnd) (w : World),
       isLoading w = false →
       (∀ ev, ev ∈ decoded_events JSON_parse chunks → terminal ev = false) →
       let w' := sendMessage JSON_parse (render w) content (Ok chunks ending) w in
       isLoading w' = true
       ∧ messages w' = messages w ++ [mkMessage RoleUser content]).
Proof.
  intros H.
  specialize (H sample_JSON_parse "hello" [sse_record json_text_delta_Hi]
                (ReadError "network error") world_new_chat eq_refl).
  destruct H as [H _]; [| vm_compute in H; discriminate].
  assert (E : decoded_events sample_JSON_parse [sse_record json_text_delta_Hi]
              = [delta_event "Hi"]) by (vm_compute; reflexivity).
  rewrite E. intros ev Hin. apply list_elem_of_singleton in Hin. subst ev.
  reflexivity.
Qed.

(* ===================================================================== *)
(** * Further properties of the code                                      *)
(* ===================================================================== *)

(** ** The send cycle as a whole *)

(** X1.  A send accepted while the session is idle issues exactly one
    request, whatever the server answers: the text typed, with the active
    conversation id, or [null] when none is bound. *)
Theorem accepted_send_issues_one_request (JSON_parse : string → option json)
    (content : string) (response : Response) (w : World) :
  isLoading w = false →
  requests (sendMessage JSON_parse (render w) content response w)
  = requests w ++ [mkRequest content (js_or (currentConversationId w) VNull)].
Proof.
  intros Hidle.
  destruct response as [m | body | chunks ending].
  - unfold sendMessage. cbn [render render_isLoading]. rewrite Hidle. reflexivity.
  - unfold sendMessage, session_chatApi, chatApi_sendMessage, reading.
    cbn [render render_isLoading]. rewrite Hidle. now destruct (nullish _).
  - assert (H : requests (world (state_of
               (session_chatApi JSON_parse content (currentConversationId w)
                  (Ok chunks ending) (begin_cycle (render w) content w))))
             = requests w ++ [mkRequest content (js_or (currentConversationId w) VNull)]).
    { apply (cycle_invariant JSON_parse
               (λ _ c, requests (world c)
                       = requests w
                         ++ [mkRequest content (js_or (currentConversationId w) VNull)])).
      - intros evs c msg H. exact H.
      - intros evs ev c H. now rewrite (proj1 (onEvent_frame ev c)).
      - reflexivity. }
    destruct ending as [|m].
    + now rewrite (sendMessage_stream _ _ _ _ Hidle).
    + now rewrite (sendMessage_read_error _ _ _ _ _ Hidle).
Qed.

Lemma accepted_send_issues_one_request_witness :
  requests (sendMessage sample_JSON_parse (render world_c1_failed) "hello"
              (NotOk None) world_c1_failed)
  = requests world_c1_failed
    ++ [mkRequest "hello" (js_or (currentConversationId world_c1_failed) VNull)].
Proof.
  apply (accepted_send_issues_one_request sample_JSON_parse "hello" (NotOk None)
           world_c1_failed).
  reflexivity.
Defined.

(** X2.  When the last event of a stream that ends normally is an [error]
    with a non-empty message, no [done] or [error] event having come before
    it, and the ledger can be written, the cycle ends with the transcript
    extended by the user message and the error message only: what had been
    streamed before the error is not committed, the buffer is empty and the
    session is idle. *)
Theorem stream_error_discards_partial_reply (JSON_parse : string → option json)
    (content : string) (chunks : list string) (w : World)
    (pre : list ProtocolEvent) (e : ProtocolEvent) (m : string) :
  isLoading w = false →
  quota_exceeded (localStorage w) = false →
  decoded_events JSON_parse chunks = pre ++ [e] →
  ev_type e = EvError →
  get_field (ev_data e) "message" = VStr m →
  m ≠ EmptyString →
  (∀ ev, ev ∈ pre → terminal ev = false) →
  let w' := sendMessage JSON_parse (render w) content (Ok chunks EndOfStream) w in
  messages w'
  = messages w ++ [mkMessage RoleUser content; mkMessage RoleError (error_display m)]
  ∧ streamingContent w' = EmptyString
  ∧ isLoading w' = false.
Proof.
  intros Hidle Hq Hevs Hty Hm Hne Hpre w'. subst w'.
  rewrite (sendMessage_stream _ _ _ _ Hidle).
  apply (cycle_last_event JSON_parse content chunks EndOfStream w pre e
           (λ c, messages (world c)
                 = messages w ++ [mkMessage RoleUser content;
                                  mkMessage RoleError (error_display m)]
                 ∧ streamingContent (world c) = EmptyString
                 ∧ isLoading (world c) = false) Hidle Hevs).
  - intros c msg H. exact H.
  - intros c [(_ & _ & Hquota) Hs]. destruct (Hs Hpre) as (_ & Hms & _).
    destruct e as [ty data]. cbn in Hty, Hm. subst ty.
    destruct (onEvent_error_writable data m c Hm Hne) as (c' & -> & Hm' & Hb & Hl & _).
    { now rewrite Hquota. }
    cbn. rewrite Hm', Hms, <- app_assoc. easy.
Qed.

Lemma stream_error_discards_partial_reply_witness :
  let w' := sendMessage sample_JSON_parse (render world_c1_failed) "hello"
              (Ok stream_Hi_boom EndOfStream)
              world_c1_failed in
  messages w'
  = messages world_c1_failed
    ++ [mkMessage RoleUser "hello"; mkMessage RoleError (error_display "boom")]
  ∧ streamingContent w' = EmptyString
  ∧ isLoading w' = false.
Proof.
  apply (stream_error_discards_partial_reply sample_JSON_parse "hello"
           stream_Hi_boom world_c1_failed [delta_event "Hi"] ev_error_boom "boom").
  - reflexivity.
  - reflexivity.
  - vm_compute. reflexivity.
  - reflexivity.
  - reflexivity.
  - discriminate.
  - intros ev Hin. apply list_elem_of_singleton in Hin. subst ev. reflexivity.
Defined.

(** X3.  When reading the body rejects before any terminal event, the cycle
    is rolled back like a failed request (the optimistic message removed,
    one toast for 7 seconds, idle, buffer empty, ledger untouched), but the
    conversation bound by the [conversation] events received stays the
    active one. *)
Theorem read_error_rolls_back_but_keeps_binding
    (JSON_parse : string → option json) (content : string)
    (chunks : list string) (m : string) (w : World) :
  isLoading w = false →
  (∀ ev, ev ∈ decoded_events JSON_parse chunks → terminal ev = false) →
  let w' := sendMessage JSON_parse (render w) content (Ok chunks (ReadError m)) w in
  messages w' = messages w
  ∧ isLoading w' = false
  ∧ streamingContent w' = EmptyString
  ∧ toasts w'
    = toasts w ++ [mkToast (ToString (js_or (VStr m) (VStr "Failed to send message")))
                     toast_error (Some 7000)]
  ∧ localStorage w' = localStorage w
  ∧ currentConversationId w'
    = cycle_conversation (currentConversationId w) (decoded_events JSON_parse chunks).
Proof.
  intros Hidle Hnt w'. subst w'. rewrite (sendMessage_read_error _ _ _ _ _ Hidle).
  pose proof (cycle_inv_final JSON_parse content chunks (ReadError m) w Hidle)
    as [(_ & Hid & _) Hs].
  destruct (Hs Hnt) as (_ & Hms & _ & Hst & Hcur).
  assert (Ht : toasts (world (state_of
               (session_chatApi JSON_parse content (currentConversationId w)
                  (Ok chunks (ReadError m)) (begin_cycle (render w) content w)))) = toasts w).
  { apply (cycle_invariant JSON_parse (λ _ c, toasts (world c) = toasts w)).
    - intros evs c msg H. exact H.
    - intros evs ev c H. now rewrite (proj2 (onEvent_frame ev c)).
    - reflexivity. }
  set (cf := state_of _) in *. clearbody cf.
  cbn. rewrite Hms, Ht, Hst, Hcur, Hid. unfold slice_0_m1. rewrite removelast_last.
  easy.
Qed.

Lemma read_error_rolls_back_but_keeps_binding_witness :
  let w' := sendMessage sample_JSON_parse (render world_new_chat) "hello"
              (Ok [sse_record json_text_conversation_c1; sse_record json_text_delta_Hi]
                 (ReadError "network error")) world_new_chat in
  messages w' = messages world_new_chat
  ∧ isLoading w' = false
  ∧ streamingContent w' = EmptyString
  ∧ toasts w'
    = toasts world_new_chat
      ++ [mkToast (ToString (js_or (VStr "network error") (VStr "Failed to send message")))
            toast_error (Some 7000)]
  ∧ localStorage w' = localStorage world_new_chat
  ∧ currentConversationId w'
    = cycle_conversation (currentConversationId world_new_chat)
        (decoded_events sample_JSON_parse
           [sse_record json_text_conversation_c1; sse_record json_text_delta_Hi]).
Proof.
  apply (read_error_rolls_back_but_keeps_binding sample_JSON_parse "hello"
           [sse_record json_text_conversation_c1; sse_record json_text_delta_Hi]
           "network error" world_new_chat).
  - reflexivity.
  - assert (E : decoded_events sample_JSON_parse
                  [sse_record json_text_conversation_c1; sse_record json_text_delta_Hi]
                = [mkEvent EvConversation
                     (JObject {[ "conversation_id" := JStr "c1"; "is_new" := JBool false ]});
                   delta_event "Hi"]) by (vm_compute; reflexivity).
    rewrite E. intros ev Hin.
    apply elem_of_cons in Hin as [->|Hin]; [reflexivity |].
    apply list_elem_of_singleton in Hin. subst ev. reflexivity.
Defined.

(** X4.  When reading the body rejects after a [done] event has committed a
    non-empty reply, the rollback removes the last message of the
    transcript, which is then the reply: the user message stays and the
    reply is lost. *)
Theorem read_error_after_done_drops_reply (JSON_parse : string → option json)
    (content : string) (chunks : list string) (m : string) (w : World)
    (pre : list ProtocolEvent) (d : ProtocolEvent) :
  isLoading w = false →
  quota_exceeded (localStorage w) = false →
  decoded_events JSON_parse chunks = pre ++ [d] →
  ev_type d = EvDone →
  (∀ ev, ev ∈ pre → terminal ev = false) →
  streamed_content pre ≠ EmptyString →
  let w' := sendMessage JSON_parse (render w) content (Ok chunks (ReadError m)) w in
  messages w' = messages w ++ [mkMessage RoleUser content]
  ∧ isLoading w' = false
  ∧ streamingContent w' = EmptyString.
Proof.
  intros Hidle Hq Hevs Hty Hpre Hc w'. subst w'.
  rewrite (sendMessage_read_error _ _ _ _ _ Hidle).
  assert (H : messages (world (state_of
               (session_chatApi JSON_parse content (currentConversationId w)
                  (Ok chunks (ReadError m)) (begin_cycle (render w) content w))))
             = messages w ++ [mkMessage RoleUser content;
                              mkMessage RoleModel (streamed_content pre)]).
  { apply (cycle_last_event JSON_parse content chunks (ReadError m) w pre d
             (λ c, messages (world c)
                   = messages w ++ [mkMessage RoleUser content;
                                    mkMessage RoleModel (streamed_content pre)])
             Hidle Hevs).
    - intros c msg H. exact H.
    - intros c [(Hacc & _ & Hquota) Hs]. destruct (Hs Hpre) as (_ & Hms & _).
      destruct d as [ty data]. cbn in Hty. subst ty.
      destruct (onEvent_done_writable data c) as (c' & -> & Hm' & _).
      { now rewrite Hquota. }
      cbn. rewrite Hm', Hms, Hacc, decide_False by exact Hc.
      now rewrite <- app_assoc. }
  set (cf := state_of _) in *. clearbody cf.
  cbn. rewrite H. unfold slice_0_m1. now rewrite removelast_snoc2.
Qed.

Lemma read_error_after_done_drops_reply_witness :
  let w' := sendMessage sample_JSON_parse (render world_new_chat) "hello"
              (Ok stream_Hi_done (ReadError "network error")) world_new_chat in
  messages w' = messages world_new_chat ++ [mkMessage RoleUser "hello"]
  ∧ isLoading w' = false
  ∧ streamingContent w' = EmptyString.
Proof.
  apply (read_error_after_done_drops_reply sample_JSON_parse "hello" stream_Hi_done
           "network error" world_new_chat [delta_event "Hi"] ev_done).
  - reflexivity.
  - reflexivity.
  - vm_compute. reflexivity.
  - reflexivity.
  - intros ev Hin. apply list_elem_of_singleton in Hin. subst ev. reflexivity.
  - vm_compute. discriminate.
Defined.

(** X5.  When the last event of a stream is [done] and the content streamed
    before it is not empty, the last message of the transcript is the model
    message holding all of that content, whatever events came before
    (earlier terminal events included). *)
Theorem done_commits_all_streamed_so_far (JSON_parse : string → option json)
    (content : string) (chunks : list string) (w : World)
    (pre : list ProtocolEvent) (d : ProtocolEvent) :
  isLoading w = false →
  quota_exceeded (localStorage w) = false →
  decoded_events JSON_parse chunks = pre ++ [d] →
  ev_type d = EvDone →
  streamed_content pre ≠ EmptyString →
  last (messages (sendMessage JSON_parse (render w) content (Ok chunks EndOfStream) w))
  = Some (mkMessage RoleModel (streamed_content pre)).
Proof.
  intros Hidle Hq Hevs Hty Hc.
  rewrite (sendMessage_stream _ _ _ _ Hidle).
  apply (cycle_last_event JSON_parse content chunks EndOfStream w pre d
           (λ c, last (messages (world c))
                 = Some (mkMessage RoleModel (streamed_content pre))) Hidle Hevs).
  - intros c msg H. exact H.
  - intros c [(Hacc & _ & Hquota) _].
    destruct d as [ty data]. cbn in Hty. subst ty.
    destruct (onEvent_done_writable data c) as (c' & -> & Hm' & _).
    { now rewrite Hquota. }
    cbn. rewrite Hm', Hacc, decide_False by exact Hc. apply last_snoc.
Qed.

Lemma done_commits_all_streamed_so_far_witness :
  last (messages (sendMessage sample_JSON_parse (render world_new_chat) "hello"
                    (Ok stream_Hi_done EndOfStream)
                    world_new_chat))
  = Some (mkMessage RoleModel (streamed_content [delta_event "Hi"])).
Proof.
  apply (done_commits_all_streamed_so_far sample_JSON_parse "hello" stream_Hi_done
           world_new_chat [delta_event "Hi"] ev_done).
  - reflexivity.
  - reflexivity.
  - vm_compute. reflexivity.
  - reflexivity.
  - vm_compute. discriminate.
Defined.

(** X6.  A cycle whose stream ends normally never removes or rewrites a
    message: the transcript it leaves is the one it started from, then the
    user message, then messages none of which is a user message. *)
Theorem normal_stream_only_appends_replies (JSON_parse : string → option json)
    (content : string) (chunks : list string) (w : World) :
  isLoading w = false →
  ∃ replies : list Message,
    messages (sendMessage JSON_parse (render w) content (Ok chunks EndOfStream) w)
    = messages w ++ mkMessage RoleUser content :: replies
    ∧ Forall (λ msg, role msg ≠ RoleUser) replies.
Proof.
  intros Hidle. rewrite (sendMessage_stream _ _ _ _ Hidle).
  apply (cycle_invariant JSON_parse
           (λ _ c, ∃ replies : list Message,
                     messages (world c) = messages w ++ mkMessage RoleUser content :: replies
                     ∧ Forall (λ msg, role msg ≠ RoleUser) replies)).
  - intros evs c msg H. exact H.
  - intros evs [ty data] c (replies & Hm & Hall).
    unfold onEvent, reading. cbn [ev_type ev_data]. destruct ty.
    + destruct (nullish data); [now exists replies |].
      destruct (truthy (get_field data "is_new")); now exists replies.
    + destruct (nullish data); now exists replies.
    + destruct (nullish data); now exists replies.
    + destruct (truthy (VStr (accumulatedContent c))); [| now exists replies].
      exists (replies ++ [mkMessage RoleModel (accumulatedContent c)]). split.
      * cbn [on_world newConversationId].
        destruct (truthy (newConversationId c)).
        -- match goal with |- context [store_op (StickyStore.removeError ?i) ?c'] =>
             destruct (store_frame i EmptyString (world c')) as [_ (Hms & _)];
             destruct (store_op_locals (StickyStore.removeError i) c') as (_ & _ & Hw);
             destruct (store_op (StickyStore.removeError i) c') as [c1|m1 c1] eqn:E
           end; cbn in *; rewrite Hw, Hms; cbn; rewrite Hm;
           now rewrite <- app_assoc.
        -- cbn. rewrite Hm. now rewrite <- app_assoc.
      * apply Forall_app. split; [exact Hall |]. now repeat constructor.
    + destruct (nullish data); [now exists replies |].
      destruct (js_or (get_field data "message") (VStr "An error occurred"))
        as [[| |m]|]; try now exists replies.
      destruct (truthy (newConversationId c)).
      * match goal with |- context [store_op (StickyStore.storeError ?i ?dm) ?c'] =>
          destruct (store_frame i dm (world c')) as [(Hms & _) _];
          destruct (store_op_locals (StickyStore.storeError i dm) c') as (_ & _ & Hw);
          destruct (store_op (StickyStore.storeError i dm) c') as [c1|m1 c1] eqn:E
        end; cbn in *.
        -- eexists (replies ++ [_]). split.
           ++ rewrite Hw, Hms, Hm. now rewrite <- app_assoc.
           ++ apply Forall_app. split; [exact Hall |]. now repeat constructor.
        -- exists replies. rewrite Hw, Hms. easy.
      * cbn. eexists (replies ++ [_]). split.
        -- rewrite Hm. now rewrite <- app_assoc.
        -- apply Forall_app. split; [exact Hall |]. now repeat constructor.
  - exists []. easy.
Qed.

Lemma normal_stream_only_appends_replies_witness :
  ∃ replies : list Message,
    messages (sendMessage sample_JSON_parse (render world_c1_failed) "hello"
                (Ok stream_Hi_done EndOfStream)
                world_c1_failed)
    = messages world_c1_failed ++ mkMessage RoleUser "hello" :: replies
    ∧ Forall (λ msg, role msg ≠ RoleUser) replies.
Proof.
  apply (normal_stream_only_appends_replies sample_JSON_parse "hello" stream_Hi_done
           world_c1_failed).
  reflexivity.
Defined.

(** X7.  A cycle navigates exactly once per [conversation] event flagged
    [is_new], to [/chat/<id>] in arrival order, and nowhere else, whether
    the stream ends normally or with a read error. *)
Theorem cycle_navigates_only_to_new_conversations
    (JSON_parse : string → option json) (content : string)
    (chunks : list string) (ending : StreamEnd) (w : World) :
  isLoading w = false →
  navigations (sendMessage JSON_parse (render w) content (Ok chunks ending) w)
  = navigations w ++ new_conversation_urls (decoded_events JSON_parse chunks).
Proof.
  intros Hidle.
  assert (H : navigations (world (state_of
               (session_chatApi JSON_parse content (currentConversationId w)
                  (Ok chunks ending) (begin_cycle (render w) content w))))
             = navigations w ++ new_conversation_urls (decoded_events JSON_parse chunks)).
  { apply (cycle_invariant JSON_parse
             (λ evs c, navigations (world c) = navigations w ++ new_conversation_urls evs)).
    - intros evs c msg H. exact H.
    - intros evs [ty data] c H. rewrite new_conversation_urls_snoc, app_assoc, <- H.
      unfold onEvent, reading, new_conversation_urls. cbn [ev_type ev_data flat_map].
      destruct ty.
      + destruct (nullish data); [now rewrite !app_nil_r |].
        destruct (truthy (get_field data "is_new")); cbn; now rewrite ?app_nil_r.
      + destruct (nullish data); now rewrite !app_nil_r.
      + destruct (nullish data); now rewrite !app_nil_r.
      + rewrite !app_nil_r.
        destruct (truthy (VStr (accumulatedContent c))); [| easy].
        cbn [on_world newConversationId].
        destruct (truthy (newConversationId c)); [| easy].
        unfold store_op, StickyStore.removeError, StickyStore.getStoredErrors,
          StickyStore.setItem. cbn.
        destruct (chat_errors (localStorage (world c))); cbn;
          destruct (quota_exceeded (localStorage (world c))); easy.
      + rewrite !app_nil_r. destruct (nullish data); [easy |].
        destruct (js_or (get_field data "message") (VStr "An error occurred"))
          as [[| |m]|]; try easy.
        destruct (truthy (newConversationId c)); [| easy].
        unfold store_op, StickyStore.storeError, StickyStore.getStoredErrors,
          StickyStore.setItem. cbn.
        destruct (chat_errors (localStorage (world c))); cbn;
          destruct (quota_exceeded (localStorage (world c))); easy.
    - cbn. now rewrite app_nil_r. }
  destruct ending as [|m].
  - now rewrite (sendMessage_stream _ _ _ _ Hidle).
  - now rewrite (sendMessage_read_error _ _ _ _ _ Hidle).
Qed.

Lemma cycle_navigates_only_to_new_conversations_witness :
  navigations (sendMessage sample_JSON_parse (render world_new_chat) "hello"
                 (Ok [sse_record json_text_conversation_c1] EndOfStream) world_new_chat)
  = navigations world_new_chat
    ++ new_conversation_urls
         (decoded_events sample_JSON_parse [sse_record json_text_conversation_c1]).
Proof.
  apply (cycle_navigates_only_to_new_conversations sample_JSON_parse "hello"
           [sse_record json_text_conversation_c1] EndOfStream world_new_chat).
  reflexivity.
Defined.

(** ** The decoder, line by line *)

(** X8.  Text after the last line feed of the body is never processed: a
    final chunk without a line feed changes neither what the read loop does
    nor the events decoded, even when it is a complete [data:] record. *)
Theorem unterminated_tail_is_never_processed (JSON_parse : string → option json)
    (chunks : list string) (tail : string) :
  has_lf tail = false →
  (∀ (S : Type) (log : string → S → S) (onEvent : ProtocolEvent → S → Result S)
     (ending : StreamEnd) (s : S),
     read_loop JSON_parse log onEvent (chunks ++ [tail]) ending EmptyString s
     = read_loop JSON_parse log onEvent chunks ending EmptyString s)
  ∧ decoded_events JSON_parse (chunks ++ [tail]) = decoded_events JSON_parse chunks.
Proof.
  intros Htail. split.
  - intros S log onEvent ending s.
    rewrite !read_loop_lines, !lines_read_start. cbn [fst].
    now rewrite concat_snoc, complete_lines_tail.
  - rewrite !decoded_events_lines. now rewrite concat_snoc, complete_lines_tail.
Qed.

Lemma unterminated_tail_is_never_processed_witness :
  (∀ (S : Type) (log : string → S → S) (onEvent : ProtocolEvent → S → Result S)
     (ending : StreamEnd) (s : S),
     read_loop sample_JSON_parse log onEvent
       ([sse_record json_text_delta_Hi] ++ ["data: {}"]) ending EmptyString s
     = read_loop sample_JSON_parse log onEvent [sse_record json_text_delta_Hi]
         ending EmptyString s)
  ∧ decoded_events sample_JSON_parse ([sse_record json_text_delta_Hi] ++ ["data: {}"])
    = decoded_events sample_JSON_parse [sse_record json_text_delta_Hi].
Proof.
  apply (unterminated_tail_is_never_processed sample_JSON_parse
           [sse_record json_text_delta_Hi] "data: {}").
  reflexivity.
Defined.

(** X9.  A complete line that does not start with ["data: "] (an [event:]
    line, a comment, a blank line, a [data:] line without the space) has no
    effect at all: no event, no diagnostic. *)
Theorem lines_without_data_prefix_are_ignored (JSON_parse : string → option json)
    (line : string) (more : list string) :
  has_lf line = false →
  startsWith "data: " line = false →
  ∀ (S : Type) (log : string → S → S) (onEvent : ProtocolEvent → S → Result S)
    (ending : StreamEnd) (s : S),
    read_loop JSON_parse log onEvent ((line +:+ String LF EmptyString) :: more)
      ending EmptyString s
    = read_loop JSON_parse log onEvent more ending EmptyString s.
Proof.
  intros Hlf Hdata S log onEvent ending s.
  rewrite !read_loop_lines, (lines_read_line _ more Hlf). cbn [fst].
  rewrite process_lines_cons. unfold line_action. rewrite Hdata.
  now destruct (startsWith "event: " line).
Qed.

Lemma lines_without_data_prefix_are_ignored_witness :
  startsWith "data: " "data:{}" = false
  ∧ ∀ (S : Type) (log : string → S → S) (onEvent : ProtocolEvent → S → Result S)
      (ending : StreamEnd) (s : S),
      read_loop sample_JSON_parse log onEvent
        (("data:{}" +:+ String LF EmptyString) :: [sse_record json_text_done])
        ending EmptyString s
      = read_loop sample_JSON_parse log onEvent [sse_record json_text_done]
          ending EmptyString s.
Proof.
  split; [reflexivity |].
  apply (lines_without_data_prefix_are_ignored sample_JSON_parse "data:{}"
           [sse_record json_text_done]); reflexivity.
Defined.

(** X10.  A [data:] line whose payload is not JSON, or is the JSON [null],
    produces one console diagnostic and no event, and the loop goes on with
    the rest of the body. *)
Theorem unparsable_payload_is_reported_and_skipped
    (JSON_parse : string → option json) (text : string) (more : list string) :
  has_lf text = false →
  JSON_parse text = None ∨ JSON_parse text = Some (JPrim JNull) →
  ∀ (S : Type) (log : string → S → S) (onEvent : ProtocolEvent → S → Result S)
    (ending : StreamEnd) (s : S),
    read_loop JSON_parse log onEvent
      ((("data: " +:+ text) +:+ String LF EmptyString) :: more) ending EmptyString s
    = read_loop JSON_parse log onEvent more ending EmptyString
        (log "Failed to parse SSE data:" s).
Proof.
  intros Hlf Hparse S log onEvent ending s.
  assert (Hline : has_lf ("data: " +:+ text) = false) by now rewrite has_lf_app, Hlf.
  rewrite !read_loop_lines, (lines_read_line _ more Hline). cbn [fst].
  rewrite process_lines_cons, line_action_data.
  now destruct Hparse as [-> | ->].
Qed.

Lemma unparsable_payload_is_reported_and_skipped_witness :
  sample_JSON_parse "{oops" = None
  ∧ ∀ (S : Type) (log : string → S → S) (onEvent : ProtocolEvent → S → Result S)
      (ending : StreamEnd) (s : S),
      read_loop sample_JSON_parse log onEvent
        ((("data: " +:+ "{oops") +:+ String LF EmptyString)
         :: [sse_record json_text_done])
        ending EmptyString s
      = read_loop sample_JSON_parse log onEvent [sse_record json_text_done]
          ending EmptyString (log "Failed to parse SSE data:" s).
Proof.
  split; [vm_compute; reflexivity |].
  apply (unparsable_payload_is_reported_and_skipped sample_JSON_parse "{oops"
           [sse_record json_text_done]).
  - reflexivity.
  - left. vm_compute. reflexivity.
Defined.

(** X11.  Decoding is incremental: the events of a body are those of any
    prefix of its chunks, followed by those decoded from the unterminated
    rest of that prefix put in front of the remaining chunks. *)
Theorem decoding_is_incremental (JSON_parse : string → option json)
    (chunks more : list string) :
  decoded_events JSON_parse (chunks ++ more)
  = decoded_events JSON_parse chunks
    ++ decoded_events JSON_parse (partial_line (concat chunks) :: more).
Proof.
  rewrite !decoded_events_lines, concat_app, complete_lines_app, flat_map_app.
  reflexivity.
Qed.

(** ** The sticky error store *)

Section Ledger.
Import StickyStore.

(** X12.  When the ledger can be written, [storeError] returns and the
    answer of [getErrorForConversation] for every other key is unchanged.
    For the key itself: when it is not [__proto__], or the stored ledger has
    an entry under that very name, the content stored is what
    [getErrorForConversation] then gives (nothing, if the content is empty);
    when it is [__proto__] and the stored ledger has no such entry, the
    assignment reaches the prototype setter, the ledger is written back as it
    was read, and [getErrorForConversation] gives nothing. *)
Theorem put_then_get (cid : JsValue) (content : string) (w : World) :
  quota_exceeded (localStorage w) = false →
  ∃ w', storeError cid content w = Returned w'
        ∧ (ToString cid ≠ proto_key ∨ is_Some (ledger_of w !! proto_key) →
           sticky_get cid w'
           = (if decide (content = EmptyString) then None else Some content))
        ∧ (ToString cid = proto_key → ledger_of w !! proto_key = None →
           sticky_get cid w' = None ∧ ledger_of w' = ledger_of w)
        ∧ (∀ other, ToString other ≠ ToString cid →
             sticky_get other w' = sticky_get other w).
Proof.
  intros Hq. destruct (storeError_writable cid content w Hq) as (w' & Hst & Hl & _).
  exists w'. split; [exact Hst |]. split; [| split].
  - intros Hk. rewrite sticky_get_ledger, Hl.
    assert (E : assign (ToString cid) (mkStickyError content (now w)) (ledger_of w)
                = <[ToString cid := mkStickyError content (now w)]> (ledger_of w)).
    { destruct Hk as [Hk|Hk]; [now apply assign_plain |].
      destruct (decide (ToString cid = proto_key)) as [Ep|Ep];
        [| now apply assign_plain].
      apply assign_own. now rewrite Ep. }
    now rewrite E, lookup_insert_eq.
  - intros Hk Hnone. rewrite sticky_get_ledger, Hl, Hk.
    rewrite (assign_proto _ _ Hnone). now rewrite Hnone.
  - intros other Hne. rewrite !sticky_get_ledger, Hl.
    now rewrite assign_other by congruence.
Qed.

Lemma put_then_get_witness :
  ∃ w', storeError (VStr "c2") "boom" world_c1_failed = Returned w'
        ∧ (ToString (VStr "c2") ≠ proto_key
           ∨ is_Some (ledger_of world_c1_failed !! proto_key) →
           sticky_get (VStr "c2") w'
           = (if decide ("boom" = EmptyString) then None else Some "boom"))
        ∧ (ToString (VStr "c2") = proto_key →
           ledger_of world_c1_failed !! proto_key = None →
           sticky_get (VStr "c2") w' = None
           ∧ ledger_of w' = ledger_of world_c1_failed)
        ∧ (∀ other, ToString other ≠ ToString (VStr "c2") →
             sticky_get other w' = sticky_get other world_c1_failed).
Proof.
  apply (put_then_get (VStr "c2") "boom" world_c1_failed). reflexivity.
Defined.

(** X13.  When the ledger can be written, [removeError] returns, the
    conversation then has no sticky error, the other keys are unchanged, and
    removing again changes nothing in storage. *)
Theorem remove_then_get (cid : JsValue) (w : World) :
  quota_exceeded (localStorage w) = false →
  ∃ w', removeError cid w = Returned w'
        ∧ sticky_get cid w' = None
        ∧ (∀ other, ToString other ≠ ToString cid →
             sticky_get other w' = sticky_get other w)
        ∧ localStorage (state_of (removeError cid w')) = localStorage w'.
Proof.
  intros Hq. destruct (removeError_writable cid w Hq) as (w' & Hrm & Hl & Hls).
  exists w'. split; [exact Hrm |]. split; [| split].
  - now rewrite sticky_get_ledger, Hl, lookup_delete_eq.
  - intros other Hne. rewrite !sticky_get_ledger, Hl.
    now rewrite lookup_delete_ne by congruence.
  - destruct (removeError_writable cid w') as (w'' & -> & Hl' & Hls').
    { now rewrite Hls. }
    cbn. rewrite Hls', Hls, Hl. f_equal. f_equal.
    apply map_eq. intros k. destruct (decide (k = ToString cid)) as [->|Hk].
    + now rewrite !lookup_delete_eq.
    + now rewrite !lookup_delete_ne by congruence.
Qed.

Lemma remove_then_get_witness :
  ∃ w', removeError (VStr "c1") world_c1_failed = Returned w'
        ∧ sticky_get (VStr "c1") w' = None
        ∧ (∀ other, ToString other ≠ ToString (VStr "c1") →
             sticky_get other w' = sticky_get other world_c1_failed)
        ∧ localStorage (state_of (removeError (VStr "c1") w')) = localStorage w'.
Proof.
  apply (remove_then_get (VStr "c1") world_c1_failed). reflexivity.
Defined.

(** X14.  The ledger keeps one error per conversation: storing a second
    error for the same conversation leaves storage as if only the second
    had been stored. *)
Theorem newest_error_overwrites (cid : JsValue) (first second : string) (w : World) :
  quota_exceeded (localStorage w) = false →
  localStorage (state_of (storeError cid second (state_of (storeError cid first w))))
  = localStorage (state_of (storeError cid second w)).
Proof.
  intros Hq.
  destruct (storeError_writable cid first w Hq) as (w1 & -> & Hl1 & Hls1 & Hn1).
  destruct (storeError_writable cid second w Hq) as (w2 & -> & Hl2 & Hls2 & _).
  cbn [state_of].
  destruct (storeError_writable cid second w1) as (w3 & -> & Hl3 & Hls3 & _).
  { now rewrite Hls1. }
  cbn [state_of]. rewrite Hls3, Hls2, Hl1, Hn1. f_equal. f_equal.
  apply assign_assign.
Qed.

Lemma newest_error_overwrites_witness :
  localStorage (state_of (storeError (VStr "c1") "second"
                            (state_of (storeError (VStr "c1") "first" world_new_chat))))
  = localStorage (state_of (storeError (VStr "c1") "second" world_new_chat)).
Proof.
  apply (newest_error_overwrites (VStr "c1") "first" "second" world_new_chat).
  reflexivity.
Defined.

(** X15.  When the stored ledger does not parse, every lookup answers
    [null] after one console diagnostic, and the next [storeError] replaces
    the stored text by a ledger holding the new entry only, or by the empty
    ledger when the key is [__proto__]. *)
Theorem malformed_ledger_reads_empty_and_is_replaced (cid : JsValue)
    (content : string) (w : World) :
  chat_errors (localStorage w) = Malformed →
  (∀ other, getErrorForConversation other w
            = (None, console_error "Failed to parse stored errors:" w))
  ∧ (quota_exceeded (localStorage w) = false →
     localStorage (state_of (storeError cid content w))
     = mkLocalStorage
         (Ledger (if decide (ToString cid = proto_key) then ∅
                  else {[ ToString cid := mkStickyError content (now w) ]})) false).
Proof.
  intros Hm. split.
  - intros other. unfold getErrorForConversation, getStoredErrors. now rewrite Hm.
  - intros Hq.
    destruct (storeError_writable cid content w Hq) as (w' & -> & _ & Hls & _).
    cbn [state_of]. rewrite Hls.
    assert (El : ledger_of w = ∅)
      by (unfold ledger_of, getStoredErrors; now rewrite Hm).
    rewrite El. unfold assign.
    destruct (decide (ToString cid = proto_key)) as [E|E];
      [now rewrite lookup_empty | reflexivity].
Qed.

Lemma malformed_ledger_reads_empty_and_is_replaced_witness :
  (∀ other, getErrorForConversation other world_malformed_ledger
            = (None, console_error "Failed to parse stored errors:" world_malformed_ledger))
  ∧ (quota_exceeded (localStorage world_malformed_ledger) = false →
     localStorage (state_of (storeError (VStr "c1") "boom" world_malformed_ledger))
     = mkLocalStorage
         (Ledger (if decide (ToString (VStr "c1") = proto_key) then ∅
                  else {[ ToString (VStr "c1")
                          := mkStickyError "boom" (now world_malformed_ledger) ]}))
         false).
Proof.
  apply (malformed_ledger_reads_empty_and_is_replaced (VStr "c1") "boom"
           world_malformed_ledger).
  reflexivity.
Defined.

End Ledger.

(** ** Loading and deleting conversations *)

Section Conversations.
Import StickyStore.

(** X16.  A sticky error survives leaving the conversation: after a cycle
    ended by an [error] event on a bound conversation, whose id is not the
    property name [__proto__], [newChat] and a reload of that conversation
    show the server's history followed by the same error message. *)
Theorem sticky_error_reappears_on_reload (JSON_parse : string → option json)
    (content : string) (chunks : list string) (w : World)
    (pre : list ProtocolEvent) (e : ProtocolEvent) (m : string)
    (data : ConversationData) :
  isLoading w = false →
  quota_exceeded (localStorage w) = false →
  decoded_events JSON_parse chunks = pre ++ [e] →
  ev_type e = EvError →
  get_field (ev_data e) "message" = VStr m →
  m ≠ EmptyString →
  truthy (cycle_conversation (currentConversationId w) pre) = true →
  ToString (cycle_conversation (currentConversationId w) pre) ≠ proto_key →
  let cid := cycle_conversation (currentConversationId w) pre in
  let w1 := sendMessage JSON_parse (render w) content (Ok chunks EndOfStream) w in
  let w2 := loadConversation cid (RestOk (Resolved data)) (newChat w1) in
  last (messages w1) = Some (mkMessage RoleError (error_display m))
  ∧ messages w2
    = default [] (data_messages data) ++ [mkMessage RoleError (error_display m)]
  ∧ currentConversationId w2 = cid.
Proof.
  intros Hidle Hq Hevs Hty Hm Hne Hid Hkey cid w1 w2.
  assert (H : last (messages w1) = Some (mkMessage RoleError (error_display m))
              ∧ sticky_get cid w1 = Some (error_display m)).
  { subst w1. rewrite (sendMessage_stream _ _ _ _ Hidle).
    apply (cycle_last_event JSON_parse content chunks EndOfStream w pre e
             (λ c, last (messages (world c)) = Some (mkMessage RoleError (error_display m))
                   ∧ sticky_get cid (world c) = Some (error_display m)) Hidle Hevs).
    - intros c msg [H1 H2]. split; [exact H1 |]. rewrite <- H2.
      now apply sticky_get_storage.
    - intros c [(_ & Hnid & Hquota) _].
      destruct e as [ty edata]. cbn in Hty, Hm. subst ty.
      destruct (onEvent_error_writable edata m c Hm Hne)
        as (c' & -> & Hm' & _ & _ & Hget & _).
      { now rewrite Hquota. }
      cbn. rewrite Hm', last_snoc. split; [reflexivity |].
      unfold cid. rewrite <- Hnid. apply Hget; now rewrite Hnid. }
  destruct H as [Hlast Hget]. split; [exact Hlast |].
  subst w2. destruct (loadConversation_ok cid data (newChat w1) Hid) as [Hms Hcur].
  rewrite Hms, Hcur, sticky_get_newChat, Hget. easy.
Qed.

Lemma sticky_error_reappears_on_reload_witness :
  let cid := cycle_conversation (currentConversationId world_c1_failed) [] in
  let w1 := sendMessage sample_JSON_parse (render world_c1_failed) "hello"
              (Ok [sse_record json_text_error_boom] EndOfStream) world_c1_failed in
  let w2 := loadConversation cid (RestOk (Resolved history_c1)) (newChat w1) in
  last (messages w1) = Some (mkMessage RoleError (error_display "boom"))
  ∧ messages w2
    = default [] (data_messages history_c1)
      ++ [mkMessage RoleError (error_display "boom")]
  ∧ currentConversationId w2 = cid.
Proof.
  apply (sticky_error_reappears_on_reload sample_JSON_parse "hello"
           [sse_record json_text_error_boom] world_c1_failed [] ev_error_boom "boom"
           history_c1).
  - reflexivity.
  - reflexivity.
  - vm_compute. reflexivity.
  - reflexivity.
  - reflexivity.
  - discriminate.
  - reflexivity.
  - discriminate.
Defined.

(** X17.  After a cycle that committed a non-empty reply on a bound
    conversation, reloading that conversation shows the server's history
    and no error message, whatever sticky error it had before. *)
Theorem reload_after_reply_shows_history_only (JSON_parse : string → option json)
    (content : string) (chunks : list string) (w : World)
    (pre : list ProtocolEvent) (d : ProtocolEvent) (data : ConversationData) :
  isLoading w = false →
  quota_exceeded (localStorage w) = false →
  decoded_events JSON_parse chunks = pre ++ [d] →
  ev_type d = EvDone →
  streamed_content pre ≠ EmptyString →
  truthy (cycle_conversation (currentConversationId w) pre) = true →
  let cid := cycle_conversation (currentConversationId w) pre in
  let w1 := sendMessage JSON_parse (render w) content (Ok chunks EndOfStream) w in
  messages (loadConversation cid (RestOk (Resolved data)) w1)
  = default [] (data_messages data).
Proof.
  intros Hidle Hq Hevs Hty Hc Hid cid w1. subst cid.
  set (cid := cycle_conversation (currentConversationId w) pre) in *.
  assert (Hget : sticky_get cid w1 = None).
  { subst w1. rewrite (sendMessage_stream _ _ _ _ Hidle).
    apply (cycle_last_event JSON_parse content chunks EndOfStream w pre d
             (λ c, sticky_get cid (world c) = None) Hidle Hevs).
    - intros c msg H. rewrite <- H. now apply sticky_get_storage.
    - intros c [(Hacc & Hnid & Hquota) _].
      destruct d as [ty ddata]. cbn in Hty. subst ty.
      unfold onEvent. cbn [ev_type].
      rewrite Hacc, (truthy_string _ Hc). cbn [on_world newConversationId].
      rewrite Hnid. fold cid. rewrite Hid.
      match goal with |- context [store_op ?op ?c'] =>
        destruct (sticky_get_removeError cid (world c')) as (wr & Hrm & Hg);
          [now rewrite <- Hq, <- Hquota |];
        unfold store_op; rewrite Hrm end.
      cbn. erewrite sticky_get_storage; [exact Hg | reflexivity]. }
  destruct (loadConversation_ok cid data w1 Hid) as [Hms _].
  rewrite Hms, Hget. apply app_nil_r.
Qed.

Lemma reload_after_reply_shows_history_only_witness :
  let cid := cycle_conversation (currentConversationId world_c1_failed)
               [delta_event "Hi"] in
  let w1 := sendMessage sample_JSON_parse (render world_c1_failed) "hello"
              (Ok stream_Hi_done EndOfStream)
              world_c1_failed in
  messages (loadConversation cid (RestOk (Resolved history_c1)) w1)
  = default [] (data_messages history_c1).
Proof.
  apply (reload_after_reply_shows_history_only sample_JSON_parse "hello"
           stream_Hi_done world_c1_failed [delta_event "Hi"] ev_done history_c1).
  - reflexivity.
  - reflexivity.
  - vm_compute. reflexivity.
  - reflexivity.
  - vm_compute. discriminate.
  - reflexivity.
Defined.

(** X18.  A delete the server accepts, with a writable ledger, returns
    [true], removes exactly the entries of the list with that id, clears
    the sticky error of that conversation and of no other, fires one
    success toast, and leaves the chat (empty transcript, no active
    conversation, navigation to [/]) exactly when the deleted conversation
    was the active one. *)
Theorem delete_removes_conversation_and_its_error (cid : JsValue) (w : World) :
  quota_exceeded (localStorage w) = false →
  let r := deleteConversation cid DeleteSucceeds w in
  r.1 = true
  ∧ (∀ c, c ∈ conversations r.2 ↔ c ∈ conversations w ∧ conv_id c ≠ cid)
  ∧ sticky_get cid r.2 = None
  ∧ (∀ other, ToString other ≠ ToString cid → sticky_get other r.2 = sticky_get other w)
  ∧ (currentConversationId w = cid →
     messages r.2 = [] ∧ currentConversationId r.2 = VNull
     ∧ navigations r.2 = navigations w ++ ["/"])
  ∧ (currentConversationId w ≠ cid →
     messages r.2 = messages w ∧ currentConversationId r.2 = currentConversationId w
     ∧ navigations r.2 = navigations w)
  ∧ toasts r.2 = toasts w ++ [mkToast "Conversation deleted" toast_success None].
Proof.
  intros Hq r.
  destruct (deleteConversation_ok cid w Hq)
    as (w1 & _ & Hl & _ & Hms & Hcur & Hnav & Hto & Hcs & Hdel).
  subst r. rewrite Hdel. cbn [fst snd]. split; [reflexivity |].
  assert (Hled : ∀ k, sticky_get k
              (toast_fire (mkToast "Conversation deleted" toast_success None)
                 (if bool_decide (currentConversationId w1 = cid)
                  then setCurrentConversationId VNull
                         (setMessages (λ _, []) (navigate "/" w1))
                  else w1)) = sticky_get k w1).
  { intros k. apply sticky_get_storage. now destruct (bool_decide _). }
  split; [| split; [| split; [| split; [| split]]]].
  - intros c.
    assert (E : conversations
              (toast_fire (mkToast "Conversation deleted" toast_success None)
                 (if bool_decide (currentConversationId w1 = cid)
                  then setCurrentConversationId VNull
                         (setMessages (λ _, []) (navigate "/" w1))
                  else w1)) = conversations w1) by now destruct (bool_decide _).
    rewrite E, Hcs, !list_elem_of_In, filter_In, negb_true_iff.
    split; intros [H1 H2]; (split; [exact H1 |]).
    + now apply bool_decide_eq_false_1 in H2.
    + now apply bool_decide_eq_false_2.
  - now rewrite Hled, sticky_get_ledger, Hl, lookup_delete_eq.
  - intros other Hne. rewrite Hled, !sticky_get_ledger, Hl.
    now rewrite lookup_delete_ne by congruence.
  - intros E. rewrite Hcur, bool_decide_eq_true_2 by exact E. cbn. now rewrite Hnav.
  - intros E. rewrite Hcur, bool_decide_eq_false_2 by exact E. cbn. easy.
  - destruct (bool_decide _); cbn; now rewrite Hto.
Qed.

Lemma delete_removes_conversation_and_its_error_witness :
  let r := deleteConversation (VStr "c1") DeleteSucceeds world_c1_failed in
  r.1 = true
  ∧ (∀ c, c ∈ conversations r.2
          ↔ c ∈ conversations world_c1_failed ∧ conv_id c ≠ VStr "c1")
  ∧ sticky_get (VStr "c1") r.2 = None
  ∧ (∀ other, ToString other ≠ ToString (VStr "c1") →
       sticky_get other r.2 = sticky_get other world_c1_failed)
  ∧ (currentConversationId world_c1_failed = VStr "c1" →
     messages r.2 = [] ∧ currentConversationId r.2 = VNull
     ∧ navigations r.2 = navigations world_c1_failed ++ ["/"])
  ∧ (currentConversationId world_c1_failed ≠ VStr "c1" →
     messages r.2 = messages world_c1_failed
     ∧ currentConversationId r.2 = currentConversationId world_c1_failed
     ∧ navigations r.2 = navigations world_c1_failed)
  ∧ toasts r.2
    = toasts world_c1_failed ++ [mkToast "Conversation deleted" toast_success None].
Proof.
  apply (delete_removes_conversation_and_its_error (VStr "c1") world_c1_failed).
  reflexivity.
Defined.

(** X19.  Deleting the same conversation a second time, the server
    accepting again, changes nothing but the toasts and the navigation
    log: list, storage, transcript and active conversation stay as the
    first delete left them. *)
Theorem second_delete_changes_nothing_but_the_toasts (cid : JsValue) (w : World) :
  quota_exceeded (localStorage w) = false →
  let r1 := deleteConversation cid DeleteSucceeds w in
  let r2 := deleteConversation cid DeleteSucceeds r1.2 in
  r2.1 = true
  ∧ conversations r2.2 = conversations r1.2
  ∧ localStorage r2.2 = localStorage r1.2
  ∧ messages r2.2 = messages r1.2
  ∧ currentConversationId r2.2 = currentConversationId r1.2.
Proof.
  intros Hq r1 r2.
  destruct (deleteConversation_ok cid w Hq)
    as (w1 & _ & Hl1 & Hs1 & Hms1 & Hcur1 & _ & _ & Hcs1 & Hdel1).
  set (w2 := r1.2).
  assert (Hw2 : w2 = toast_fire (mkToast "Conversation deleted" toast_success None)
                  (if bool_decide (currentConversationId w1 = cid)
                   then setCurrentConversationId VNull
                          (setMessages (λ _, []) (navigate "/" w1))
                   else w1)).
  { subst w2 r1. now rewrite Hdel1. }
  assert (Hst2 : localStorage w2 = localStorage w1).
  { rewrite Hw2. now destruct (bool_decide _). }
  assert (Hcs2 : conversations w2 = conversations w1).
  { rewrite Hw2. now destruct (bool_decide _). }
  assert (Hq2 : quota_exceeded (localStorage w2) = false) by now rewrite Hst2, Hs1.
  assert (Hl2 : ledger_of w2 = ledger_of w1).
  { unfold ledger_of, getStoredErrors. rewrite Hst2. now destruct (chat_errors _). }
  assert (Hshape : (currentConversationId w2 = cid → messages w2 = [])
                   ∧ (currentConversationId w2 = cid → currentConversationId w2 = VNull)).
  { rewrite Hw2. destruct (bool_decide (currentConversationId w1 = cid)) eqn:E; cbn.
    - easy.
    - apply bool_decide_eq_false_1 in E. split; intros E'; now destruct E. }
  destruct Hshape as [Hm2 Hc2].
  destruct (deleteConversation_ok cid w2 Hq2)
    as (w3 & _ & Hl3 & Hs3 & Hms3 & Hcur3 & _ & _ & Hcs3 & Hdel3).
  subst r2. fold w2. rewrite Hdel3. cbn [fst snd]. split; [reflexivity |].
  assert (Hd : delete (ToString cid) (delete (ToString cid) (ledger_of w))
               = delete (ToString cid) (ledger_of w)).
  { apply map_eq. intros k. destruct (decide (k = ToString cid)) as [->|Hk].
    - now rewrite !lookup_delete_eq.
    - now rewrite !lookup_delete_ne by congruence. }
  assert (Hf : ∀ l : list Conversation,
             List.filter (λ c, negb (bool_decide (conv_id c = cid)))
               (List.filter (λ c, negb (bool_decide (conv_id c = cid))) l)
             = List.filter (λ c, negb (bool_decide (conv_id c = cid))) l).
  { induction l as [|c l IH]; [reflexivity |]. cbn.
    destruct (negb (bool_decide (conv_id c = cid))) eqn:E; cbn; rewrite ?E, IH; reflexivity. }
  assert (Hcs : conversations w3 = conversations w2)
    by now rewrite Hcs3, Hcs2, Hcs1, Hf.
  assert (Hst : localStorage w3 = localStorage w2)
    by now rewrite Hs3, Hl2, Hl1, Hd, Hst2, Hs1.
  destruct (bool_decide (currentConversationId w3 = cid)) eqn:E; cbn.
  - apply bool_decide_eq_true_1 in E. rewrite Hcur3 in E.
    rewrite (Hm2 E), (Hc2 E). easy.
  - easy.
Qed.

Lemma second_delete_changes_nothing_but_the_toasts_witness :
  let r1 := deleteConversation (VStr "c1") DeleteSucceeds world_c1_failed in
  let r2 := deleteConversation (VStr "c1") DeleteSucceeds r1.2 in
  r2.1 = true
  ∧ conversations r2.2 = conversations r1.2
  ∧ localStorage r2.2 = localStorage r1.2
  ∧ messages r2.2 = messages r1.2
  ∧ currentConversationId r2.2 = currentConversationId r1.2.
Proof.
  apply (second_delete_changes_nothing_but_the_toasts (VStr "c1") world_c1_failed).
  reflexivity.
Defined.

(** X20.  The toast of a failed request never has an empty text: it is the
    [detail] of the error body when that is a non-empty string, ["An error
    occurred"] when the body is not JSON, and ["Failed to send message"]
    when [fetch] rejects with an empty message. *)
Theorem failed_send_toast_carries_a_message (JSON_parse : string → option json)
    (content : string) (response : Response) (w : World) :
  isLoading w = false →
  transport_failure response = true →
  ∃ text,
    toasts (sendMessage JSON_parse (render w) content response w)
    = toasts w ++ [mkToast text toast_error (Some 7000)]
    ∧ text ≠ EmptyString
    ∧ (∀ fields detail,
         response = NotOk (Some (JObject fields)) →
         fields !! "detail" = Some (JStr detail) →
         detail ≠ EmptyString →
         text = detail)
    ∧ (response = NotOk None → text = "An error occurred")
    ∧ (response = FetchRejected EmptyString → text = "Failed to send message").
Proof.
  intros Hidle Hfail. unfold sendMessage, session_chatApi, chatApi_sendMessage.
  cbn [render render_isLoading render_currentConversationId].
  rewrite Hidle. destruct response as [m | body | chunks ending]; [| | discriminate].
  - cbn [tryCatch]. eexists. split; [reflexivity |]. split; [| split; [| split]].
    + now apply or_fallback_not_empty.
    + discriminate.
    + discriminate.
    + intros E. injection E as ->. reflexivity.
  - unfold reading. destruct (nullish _) eqn:Hn.
    + cbn [tryCatch]. eexists. split; [reflexivity |]. split; [| split; [| split]].
      * discriminate.
      * intros f d Ef. injection Ef as ->. discriminate.
      * intros E. injection E as ->. discriminate.
      * discriminate.
    + cbn [tryCatch]. eexists. split; [reflexivity |]. split; [| split; [| split]].
      * apply or_fallback_not_empty. discriminate.
      * intros f d Ef Hf Hd. injection Ef as ->. cbn [get_field]. rewrite Hf.
        unfold js_or at 2. rewrite (truthy_string d Hd). cbn [ToString].
        unfold js_or. now rewrite (truthy_string d Hd).
      * intros E. injection E as ->. reflexivity.
      * discriminate.
Qed.

Lemma failed_send_toast_carries_a_message_witness :
  ∃ text,
    toasts (sendMessage sample_JSON_parse (render world_new_chat) "hello"
              (NotOk None) world_new_chat)
    = toasts world_new_chat ++ [mkToast text toast_error (Some 7000)]
    ∧ text ≠ EmptyString
    ∧ (∀ fields detail,
         NotOk None = NotOk (Some (JObject fields)) →
         fields !! "detail" = Some (JStr detail) →
         detail ≠ EmptyString →
         text = detail)
    ∧ (NotOk None = NotOk None → text = "An error occurred")
    ∧ (NotOk None = FetchRejected EmptyString → text = "Failed to send message").
Proof.
  apply (failed_send_toast_carries_a_message sample_JSON_parse "hello" (NotOk None)
           world_new_chat); reflexivity.
Defined.

End Conversations.

(** ** The toast provider *)

Section Toasts.
Import ToastProvider ToastFacts.

(** X21.  Dismissing a toast removes exactly the toasts with that id and
    keeps the others in order; dismissing again, or dismissing an id no
    toast has, changes nothing. *)
Theorem dismissal_is_idempotent (id : Z) (st : State) :
  removeToast id (removeToast id st) = removeToast id st
  ∧ ((∀ t, t ∈ shown st → item_id t ≠ id) → removeToast id st = st)
  ∧ (∀ t, t ∈ shown (removeToast id st) ↔ t ∈ shown st ∧ item_id t ≠ id).
Proof.
  assert (Hid : ∀ l : list ToastItem,
            (∀ t, t ∈ l → item_id t ≠ id) → without id l = l).
  { induction l as [|t l IH]; intros H; [reflexivity |]. unfold without in *. cbn.
    rewrite bool_decide_eq_false_2 by (apply H; left). cbn. f_equal.
    apply IH. intros t' Ht'. apply H. now right. }
  split; [| split].
  - unfold removeToast. cbn. f_equal. apply Hid.
    intros t Ht. now apply elem_of_without in Ht.
  - intros H. destruct st as [sh tm]. unfold removeToast. cbn. f_equal. now apply Hid.
  - intros t. apply elem_of_without.
Qed.

(** X22.  A toast added with a positive duration (5000 ms when none is
    given) gets a timer whose delay is the duration as [setTimeout] reads
    it, a 32-bit signed integer with negative values counting as 0: the
    duration itself when it is below 2^31, and never more than the
    duration.  The toast is shown, unless an older pending timer targets its
    id, at every time before [now + delay], and no toast with its id is
    shown at any time from [now + delay] on. *)
Theorem timed_toast_expires_when_due (message : string) (kind : option ToastKind)
    (duration : option Z) (now time : Z) (st : State) :
  0 < default 5000 duration →
  let delay := timeout_delay (default 5000 duration) in
  let st1 := (addToast message kind duration now st).2 in
  let item := mkToastItem now message (default kind_info kind) in
  (now + delay ≤ time →
   ∀ t, t ∈ shown (elapse time st1) → item_id t ≠ now)
  ∧ (time < now + delay →
     (∀ tm, tm ∈ timers st → target tm ≠ now) →
     item ∈ shown (elapse time st1))
  ∧ 0 ≤ delay ≤ default 5000 duration
  ∧ (default 5000 duration < 2 ^ 31 → delay = default 5000 duration)
  ∧ (default 5000 duration = 2 ^ 31 → delay = 0).
Proof.
  intros Hd delay st1 item.
  destruct (addToast_spec message kind duration now st) as (_ & Hs & Ht).
  assert (Hpos : (0 <? default 5000 duration) = true) by lia.
  rewrite Hpos in Ht. fold st1 in Hs, Ht. fold delay in Ht.
  destruct (timeout_delay_range (default 5000 duration)) as (H0 & Hle & Hsmall).
  split; [| split; [| split; [| split]]].
  - intros Hdue t Hin E. apply elem_of_elapse in Hin as [_ Hin].
    apply (Hin (mkTimer (now + delay) now)).
    + rewrite Ht. apply elem_of_app. right. left.
    + exact Hdue.
    + now rewrite E.
  - intros Hearly Hfree. apply elem_of_elapse. split.
    + rewrite Hs. apply elem_of_app. right. left.
    + intros tm Htm Hdue. rewrite Ht in Htm.
      apply elem_of_app in Htm as [Htm|Htm]; [now apply Hfree |].
      apply list_elem_of_singleton in Htm. subst tm. cbn in Hdue. lia.
  - unfold delay. split; [exact H0 | apply Hle; lia].
  - intros Hfit. apply Hsmall. lia.
  - intros E. unfold delay. rewrite E. reflexivity.
Qed.

Lemma timed_toast_expires_when_due_witness :
  let delay := timeout_delay (default 5000 None) in
  let st1 := (addToast "Saved" None None 1000 no_toasts).2 in
  let item := mkToastItem 1000 "Saved" (default kind_info None) in
  (1000 + delay ≤ 6000 →
   ∀ t, t ∈ shown (elapse 6000 st1) → item_id t ≠ 1000)
  ∧ (6000 < 1000 + delay →
     (∀ tm, tm ∈ timers no_toasts → target tm ≠ 1000) →
     item ∈ shown (elapse 6000 st1))
  ∧ 0 ≤ delay ≤ default 5000 None
  ∧ (default 5000 None < 2 ^ 31 → delay = default 5000 None)
  ∧ (default 5000 None = 2 ^ 31 → delay = 0).
Proof.
  apply (timed_toast_expires_when_due "Saved" None None 1000 6000 no_toasts).
  reflexivity.
Defined.

(** X23.  A toast added with a duration that is not positive schedules no
    timer, and stays shown at every later time as long as no older pending
    timer targets its id. *)
Theorem untimed_toast_stays_until_dismissed (message : string)
    (kind : option ToastKind) (duration : option Z) (now time : Z) (st : State) :
  default 5000 duration ≤ 0 →
  (∀ tm, tm ∈ timers st → target tm ≠ now) →
  let st1 := (addToast message kind duration now st).2 in
  timers st1 = timers st
  ∧ mkToastItem now message (default kind_info kind) ∈ shown (elapse time st1).
Proof.
  intros Hd Hfree st1.
  destruct (addToast_spec message kind duration now st) as (_ & Hs & Ht).
  assert (Hpos : (0 <? default 5000 duration) = false) by lia.
  rewrite Hpos, app_nil_r in Ht. fold st1 in Hs, Ht. split; [exact Ht |].
  apply elem_of_elapse. split.
  - rewrite Hs. apply elem_of_app. right. left.
  - intros tm Htm _. rewrite Ht in Htm. now apply Hfree.
Qed.

Lemma untimed_toast_stays_until_dismissed_witness :
  let st1 := (addToast "Offline" (Some kind_warning) (Some 0) 1000 no_toasts).2 in
  timers st1 = timers no_toasts
  ∧ mkToastItem 1000 "Offline" (default kind_info (Some kind_warning))
    ∈ shown (elapse 999999 st1).
Proof.
  apply (untimed_toast_stays_until_dismissed "Offline" (Some kind_warning) (Some 0)
           1000 999999 no_toasts).
  - vm_compute. discriminate.
  - intros tm Hin. now apply elem_of_nil in Hin.
Defined.

(** X24.  Toast ids are clock readings, so two toasts added in the same
    millisecond share their id: dismissing one dismisses both, and the
    timer of the first removes the second as well, even when the second was
    added with no timer of its own. *)
Theorem same_millisecond_toasts_share_a_fate (m1 m2 : string)
    (k1 k2 : option ToastKind) (d1 d2 : option Z) (now : Z) (st : State) :
  let r1 := addToast m1 k1 d1 now st in
  let r2 := addToast m2 k2 d2 now r1.2 in
  r1.1 = r2.1
  ∧ (∀ t, t ∈ shown (removeToast r1.1 r2.2) → item_id t ≠ now)
  ∧ (0 < default 5000 d1 →
     ∀ time, now + default 5000 d1 ≤ time →
       ∀ t, t ∈ shown (elapse time r2.2) → item_id t ≠ now).
Proof.
  intros r1 r2.
  destruct (addToast_spec m1 k1 d1 now st) as (Hi1 & Hs1 & Ht1).
  destruct (addToast_spec m2 k2 d2 now r1.2) as (Hi2 & Hs2 & Ht2).
  fold r1 in Hi1, Hs1, Ht1. fold r1 r2 in Hi2, Hs2, Ht2.
  split; [congruence |]. split.
  - intros t Ht. apply elem_of_without in Ht as [_ Ht]. now rewrite Hi1 in Ht.
  - intros Hd time Hdue t Hin E. apply elem_of_elapse in Hin as [_ Hin].
    assert (Hpos : (0 <? default 5000 d1) = true) by lia. rewrite Hpos in Ht1.
    destruct (timeout_delay_range (default 5000 d1)) as (_ & Hle & _).
    apply (Hin (mkTimer (now + timeout_delay (default 5000 d1)) now)).
    + rewrite Ht2, Ht1. apply elem_of_app. left. apply elem_of_app. right. left.
    + cbn. specialize (Hle ltac:(lia)). lia.
    + now rewrite E.
Qed.

End Toasts.

(** ** The authentication provider and the route guards *)

Section Authentication.
Import Auth AuthFacts.

(** X25.  When the login request succeeds and the profile request that
    follows fails, [login] rejects with the profile error and records it,
    the user stays as it was, and the token just issued stays in
    storage. *)
Theorem login_keeps_token_when_profile_fails (login_response : RestResponse LoginData)
    (me_response : RestResponse json) (data : LoginData) (m : string) (st : State) :
  handleResponse login_response = Resolved data →
  storage_full st = false →
  handleResponse me_response = Rejected m →
  let r := login login_response me_response st in
  r.1 = Rejected m
  ∧ token r.2 = Some (ToString (access_token data))
  ∧ user r.2 = user st
  ∧ error r.2 = Some m
  ∧ isAuthenticated r.2 = isAuthenticated st.
Proof.
  intros Hl Hs Hm r. subst r. unfold login. rewrite Hl. cbn [setError storage_full].
  rewrite Hs, Hm. cbn. easy.
Qed.

Lemma login_keeps_token_when_profile_fails_witness :
  let r := login login_ok me_unauthorized signed_out in
  r.1 = Rejected "Could not validate credentials"
  ∧ token r.2 = Some (ToString (access_token (mkLoginData (VStr "tok"))))
  ∧ user r.2 = user signed_out
  ∧ error r.2 = Some "Could not validate credentials"
  ∧ isAuthenticated r.2 = isAuthenticated signed_out.
Proof.
  apply (login_keeps_token_when_profile_fails login_ok me_unauthorized
           (mkLoginData (VStr "tok")) "Could not validate credentials" signed_out);
    reflexivity.
Defined.

(** X26.  When both requests of a login succeed, with a truthy profile and
    a token that is not the empty string, [login] resolves with the
    profile, the user is authenticated, the error is cleared, every later
    request carries [Authorization: Bearer <token>], and once loading is
    over the protected routes render and the public ones redirect to
    [/]. *)
Theorem login_authenticates_and_signs_requests (login_response : RestResponse LoginData)
    (me_response : RestResponse json) (data : LoginData) (userData : json)
    (st : State) :
  handleResponse login_response = Resolved data →
  storage_full st = false →
  handleResponse me_response = Resolved userData →
  truthy_json userData = true →
  access_token data ≠ VStr EmptyString →
  let r := login login_response me_response st in
  r.1 = Resolved userData
  ∧ isAuthenticated r.2 = true
  ∧ error r.2 = None
  ∧ authHeaders r.2
    = [("Content-Type", "application/json");
       ("Authorization", "Bearer " +:+ ToString (access_token data))]
  ∧ (loading st = false → ProtectedRoute r.2 = Children ∧ PublicRoute r.2 = NavigateTo "/").
Proof.
  intros Hl Hs Hm Hu Ht r. subst r. unfold login. rewrite Hl. cbn [setError storage_full].
  rewrite Hs, Hm. cbn [fst snd].
  assert (Htr : truthy (VStr (ToString (access_token data))) = true).
  { apply SessionFacts.truthy_string. intros E. now apply ToString_empty in E. }
  unfold authHeaders, ProtectedRoute, PublicRoute, isAuthenticated.
  cbn [token user loading error setToken setUser setError].
  rewrite Htr, Hu.
  split; [reflexivity | split; [reflexivity | split; [reflexivity | split; [reflexivity |]]]].
  intros ->. now split.
Qed.

Lemma login_authenticates_and_signs_requests_witness :
  let r := login login_ok me_ok signed_out in
  r.1 = Resolved profile_ann
  ∧ isAuthenticated r.2 = true
  ∧ error r.2 = None
  ∧ authHeaders r.2
    = [("Content-Type", "application/json");
       ("Authorization", "Bearer " +:+ ToString (access_token (mkLoginData (VStr "tok"))))]
  ∧ (loading signed_out = false →
     ProtectedRoute r.2 = Children ∧ PublicRoute r.2 = NavigateTo "/").
Proof.
  apply (login_authenticates_and_signs_requests login_ok me_ok
           (mkLoginData (VStr "tok")) profile_ann signed_out);
    try reflexivity.
  discriminate.
Defined.

(** X27.  After [logout], the next session check sends no token and finds
    nobody signed in, whatever the server would answer: protected routes
    redirect to [/login] and public routes render. *)
Theorem logout_ends_the_session (me_response : RestResponse json) (st : State) :
  let st' := check_session me_response (logout st) in
  isAuthenticated st' = false
  ∧ token st' = None
  ∧ authHeaders st' = [("Content-Type", "application/json")]
  ∧ ProtectedRoute st' = NavigateTo "/login"
  ∧ PublicRoute st' = Children.
Proof. cbn. easy. Qed.

(** X28.  A stored token the server rejects is removed by the session
    check, which ends loading and leaves the user as it was; a later check
    changes nothing more, and with no user the protected routes redirect to
    [/login]. *)
Theorem rejected_token_is_forgotten (me_response : RestResponse json) (m t : string)
    (st : State) :
  token st = Some t →
  t ≠ EmptyString →
  handleResponse me_response = Rejected m →
  let st' := check_session me_response st in
  token st' = None
  ∧ loading st' = false
  ∧ user st' = user st
  ∧ (∀ again, check_session again st' = st')
  ∧ (user st = None → ProtectedRoute st' = NavigateTo "/login").
Proof.
  intros Ht Hne Hm st'.
  assert (E : st' = setLoading false (setToken None st)).
  { subst st'. unfold check_session.
    now rewrite Ht, (SessionFacts.truthy_string t Hne), Hm. }
  rewrite E. clear E st'.
  split; [reflexivity | split; [reflexivity | split; [reflexivity | split]]].
  - intros again. reflexivity.
  - intros Hu. unfold ProtectedRoute, isAuthenticated. cbn. now rewrite Hu.
Qed.

Lemma rejected_token_is_forgotten_witness :
  let st' := check_session me_unauthorized (mkState None true None (Some "tok") false) in
  token st' = None
  ∧ loading st' = false
  ∧ user st' = user (mkState None true None (Some "tok") false)
  ∧ (∀ again, check_session again st' = st')
  ∧ (user (mkState None true None (Some "tok") false) = None →
     ProtectedRoute st' = NavigateTo "/login").
Proof.
  apply (rejected_token_is_forgotten me_unauthorized "Could not validate credentials"
           "tok" (mkState None true None (Some "tok") false)).
  - reflexivity.
  - discriminate.
  - reflexivity.
Defined.

(** X29.  [register] is the sign-up request followed by [login]: when the
    sign-up succeeds it settles and leaves the state exactly as [login]
    does, and when the sign-up fails it rejects with that error and
    records it, token and user being left as they were. *)
Theorem register_is_login_after_signup (register_response : RestResponse json)
    (login_response : RestResponse LoginData) (me_response : RestResponse json)
    (st : State) :
  (∀ created, handleResponse register_response = Resolved created →
     register register_response login_response me_response st
     = login login_response me_response st)
  ∧ (∀ m, handleResponse register_response = Rejected m →
       register register_response login_response me_response st
       = (Rejected m, setError (Some m) st)).
Proof.
  split.
  - intros created Hr. unfold register. rewrite Hr. unfold login. cbn [setError storage_full].
    destruct (handleResponse login_response) as [data|m]; [| reflexivity].
    destruct (storage_full st); [reflexivity |].
    destruct (handleResponse me_response); reflexivity.
  - intros m Hr. unfold register. now rewrite Hr.
Qed.

End Authentication.
